(** * tfchain / rivine [types] package: the transaction data model

    A shallow embedding of [types/transaction.go]: specifiers, transaction
    short IDs, transaction identity, the binary and JSON encodings, and the
    dispatch of validation to a transaction's extension.

    Conventions.
    - A Go [byte] is a [Byte.byte]; a byte slice or a Go string is a
      [list byte]; a slice is a list (a nil slice and an empty slice are
      both the empty list).
    - A [uint64] or [uint16] is a [Z] in its range; an operation that can
      leave the range has its wrap-around written out.
    - A Go [error] is [option error], [None] being [nil].
    - A [panic] is the [Panic] constructor of [panics].
    - An [io.Writer] that cannot fail (a buffer, a hash) is the list of the
      bytes written to it; an [io.Reader] is the list of the bytes left. *)

From Stdlib Require Import ZArith Lia List Bool String.
From Stdlib Require Import Strings.Byte.
From stdpp Require Import gmap.
Import ListNotations.

Local Open Scope Z_scope.
Set Warnings "-register-all".

(** ** Errors *)

(** The error values the package declares, and those of its collaborators. *)
Inductive error : Type :=
| ErrInvalidTransactionVersion   (* errors.New("invalid transaction version") *)
| ErrTransactionIDWrongLen
| ErrInvalidSpecifier            (* errors.New("invalid specifier") *)
| EOF                            (* io.EOF, from io.ReadFull on an empty reader *)
| ErrExternal (msg : string).    (* an error of a collaborator (encoding, json, an extension) *)

(** A Go function returning [(value, error)] where the value is only used
    when the error is nil. *)
Inductive result (A : Type) : Type :=
| Ok (a : A)
| Err (e : error).
Arguments Ok {A} a.
Arguments Err {A} e.

(** A Go function that either returns or panics. *)
Inductive panics (A : Type) : Type :=
| Return (a : A)
| Panic (msg : string).
Arguments Return {A} a.
Arguments Panic {A} msg.

Definition is_uint64 (z : Z) : Prop := 0 <= z < 2 ^ 64.
Definition is_uint16 (z : Z) : Prop := 0 <= z < 2 ^ 16.

(** Conversion of an integer to 64, resp. 16, bits. *)
Definition uint64 (z : Z) : Z := z mod 2 ^ 64.
Definition uint16 (z : Z) : Z := z mod 2 ^ 16.

(** ** Transaction short IDs *)

(** The masking and shifting constants. *)
Definition blockHeightOOBMask : Z := 0xFFFC000000000000.
Definition txShortIDBlockHeightShift : Z := 14.
Definition txSeqIndexOOBMask : Z := 0xC000.
Definition txSeqIndexMaxMask : Z := 0x3FFF.

(** [type TransactionShortID uint64]; [type BlockHeight uint64] (declared
    in another file of the package). *)
Definition TransactionShortID := Z.
Definition BlockHeight := Z.

(** [func NewTransactionShortID(height BlockHeight, txSequenceID uint16)] *)
Definition NewTransactionShortID (height : BlockHeight) (txSequenceID : Z)
  : panics TransactionShortID :=
  if Z.land height blockHeightOOBMask >? 0 then
    Panic "block height out of bounds"
  else if Z.land txSequenceID txSeqIndexOOBMask >? 0 then
    Panic "transaction sequence ID out of bounds"
  else
    Return (Z.lor (uint64 (Z.shiftl height txShortIDBlockHeightShift))
                  (Z.land txSequenceID txSeqIndexMaxMask)).

(** [func (txsid TransactionShortID) BlockHeight() BlockHeight] *)
Definition ShortID_BlockHeight (txsid : TransactionShortID) : BlockHeight :=
  Z.shiftr txsid txShortIDBlockHeightShift.

(** [func (txsid TransactionShortID) TransactionSequenceIndex() uint16] *)
Definition ShortID_TransactionSequenceIndex (txsid : TransactionShortID) : Z :=
  uint16 (Z.land txsid txSeqIndexMaxMask).

(** Chain order on (block height, sequence index) pairs. *)
Definition chain_before (h1 s1 h2 s2 : Z) : Prop :=
  h1 < h2 \/ (h1 = h2 /\ s1 < s2).

(** ** Specifiers *)

Definition SpecifierLen : nat := 16.

(** [type Specifier [SpecifierLen]byte]: the bytes of the array, in order.
    A well-formed specifier has exactly [SpecifierLen] of them. *)
Definition Specifier := list byte.
Definition wf_Specifier (s : Specifier) : Prop := length s = SpecifierLen.

(** A composite literal with fewer than 16 elements: the rest is zero. *)
Definition specifier_literal (str : string) : Specifier :=
  let b := list_byte_of_string str in
  b ++ repeat x00 (SpecifierLen - length b).

Definition SpecifierMinerPayout      := specifier_literal "miner payout".
Definition SpecifierCoinInput        := specifier_literal "coin input".
Definition SpecifierCoinOutput       := specifier_literal "coin output".
Definition SpecifierBlockStakeInput  := specifier_literal "blstake input".
Definition SpecifierBlockStakeOutput := specifier_literal "blstake output".
Definition SpecifierMinerFee         := specifier_literal "miner fee".

(** The loop of [Specifier.String]:
<<
    var i int
    for i = range s { if s[i] == 0 { break } }
>>
    [range_loop rest idx i] runs the iterations for the elements [rest],
    the first of which has index [idx]; [i] is the value the variable
    holds when the iteration starts. Each iteration first assigns the
    index to [i]. The result is the value of [i] after the loop. *)
Fixpoint range_loop (rest : list byte) (idx : nat) (i : nat) : nat :=
  match rest with
  | [] => i
  | b :: rest' =>
      if Byte.eqb b x00 then idx          (* i = idx; break *)
      else range_loop rest' (S idx) idx   (* i = idx; next iteration *)
  end.

(** [func (s Specifier) String() string]: [string(s[:i])]. *)
Definition Specifier_String (s : Specifier) : list byte :=
  firstn (range_loop s 0 0) s.

(** [func (s *Specifier) LoadString(str string) error]: the specifier
    after the call, or the error. [copy] overwrites the first [len(str)]
    bytes and leaves the others. *)
Definition Specifier_LoadString (s : Specifier) (str : list byte) : result Specifier :=
  if (SpecifierLen <? length str)%nat then Err ErrInvalidSpecifier
  else Ok (str ++ skipn (length str) s).

(** The prefix of a byte string before its first zero byte: all of it when
    it has none. *)
Fixpoint before_first_zero (s : list byte) : list byte :=
  match s with
  | [] => []
  | b :: rest => if Byte.eqb b x00 then [] else b :: before_first_zero rest
  end.

(** ** JSON documents *)

(** What [json.Marshal] returns is represented by the document it renders.
    [JRaw] is a [json.RawMessage] whose bytes come from outside the
    package. *)
Inductive JSON : Type :=
| JNumber (n : Z)
| JString (s : list byte)
| JArray (items : list JSON)
| JObject (members : list (string * JSON))
| JRaw (raw : list byte).

(** [func (s Specifier) MarshalJSON() ([]byte, error)] *)
Definition Specifier_MarshalJSON (s : Specifier) : result JSON :=
  Ok (JString (Specifier_String s)).

(** One field of a struct handed to [json.Marshal]: its key, whether its
    tag says [omitempty], whether its value is empty (a slice of length
    0), and what marshalling its value gives. *)
Record json_field : Type := {
  jf_key : string;
  jf_omitempty : bool;
  jf_empty : bool;
  jf_value : result JSON;
}.

(** [json.Marshal] of a struct: the fields in declaration order, an empty
    [omitempty] field skipped, the first error returned. *)
Fixpoint json_Marshal_struct (fields : list json_field) : result (list (string * JSON)) :=
  match fields with
  | [] => Ok []
  | f :: rest =>
      if jf_omitempty f && jf_empty f then json_Marshal_struct rest
      else match jf_value f with
           | Err e => Err e
           | Ok v => match json_Marshal_struct rest with
                     | Err e => Err e
                     | Ok ms => Ok ((jf_key f, v) :: ms)
                     end
           end
  end.

Definition is_empty {A : Type} (l : list A) : bool :=
  match l with [] => true | _ => false end.

(** ** The encoding package *)

Definition byte_of_Z (z : Z) : byte :=
  match Byte.of_N (Z.to_N (z mod 256)) with
  | Some b => b
  | None => x00
  end.

Definition Z_of_byte (b : byte) : Z := Z.of_N (Byte.to_N b).

Fixpoint le_bytes (n : nat) (z : Z) : list byte :=
  match n with
  | O => []
  | S n' => byte_of_Z z :: le_bytes n' (z / 256)
  end.

Fixpoint le_value (bs : list byte) : Z :=
  match bs with
  | [] => 0
  | b :: rest => Z_of_byte b + 256 * le_value rest
  end.

(** Modelled from the spec: [encoding.EncUint64] and [encoding.DecUint64],
    which the sources call but do not contain; the spec gives the format,
    a fixed 8-byte little-endian integer. *)
Definition EncUint64 (z : Z) : list byte := le_bytes 8 z.
Definition DecUint64 (bs : list byte) : Z := le_value (firstn 8 bs).

(** How the encoding package writes and reads the values of one type: what
    [Encoder.Encode] writes, and what [Decoder.Decode] reads off the front
    of a reader (the value and the bytes left), or its error. *)
Record Codec (A : Type) : Type := {
  Marshal : A -> list byte;
  Unmarshal : list byte -> result (A * list byte);
}.
Arguments Marshal {A} _ _.
Arguments Unmarshal {A} _ _.

(** A decoder gives a value back from its encoding, whatever follows it. *)
Definition decodes {A : Type} (c : Codec A) (a : A) : Prop :=
  forall rest, Unmarshal c (Marshal c a ++ rest) = Ok (a, rest).

(** ** Transactions *)

(** [type TransactionVersion byte] *)
Definition TransactionVersion := byte.
Definition TransactionVersionZero : TransactionVersion := x00.

#[global] Instance byte_eq_decision : EqDecision byte := Byte.byte_eq_dec.
#[global] Instance byte_countable : Countable byte :=
  inj_countable Byte.to_N Byte.of_N Byte.of_to_N.

(** The types of the package and of its collaborators that the sources use
    and do not declare. [ExtensionValue] is the type of the values a
    transaction's [Extension interface{}] holds when it is not nil. *)
Record Types : Type := {
  Currency : Type;
  UnlockHash : Type;
  InputLockProxy : Type;
  Hash : Type;              (* crypto.Hash *)
  ExtensionValue : Type;
}.

Section Model.
Context {T : Types}.

Definition TransactionID := Hash T.
Definition CoinOutputID := Hash T.
Definition BlockStakeOutputID := Hash T.
Definition OutputID := Hash T.

Record CoinInput : Type := {
  ci_ParentID : CoinOutputID;
  ci_Unlocker : InputLockProxy T;
}.

Record CoinOutput : Type := {
  co_Value : Currency T;
  co_UnlockHash : UnlockHash T;
}.

Record BlockStakeInput : Type := {
  bsi_ParentID : BlockStakeOutputID;
  bsi_Unlocker : InputLockProxy T;
}.

Record BlockStakeOutput : Type := {
  bso_Value : Currency T;
  bso_UnlockHash : UnlockHash T;
}.

Record Transaction : Type := {
  Version : TransactionVersion;
  CoinInputs : list CoinInput;
  CoinOutputs : list CoinOutput;
  BlockStakeInputs : list BlockStakeInput;
  BlockStakeOutputs : list BlockStakeOutput;
  MinerFees : list (Currency T);
  ArbitraryData : list byte;
  Extension : option (ExtensionValue T);   (* None is the nil interface *)
}.

(** [Transaction{}] *)
Definition zeroTransaction : Transaction :=
  {| Version := TransactionVersionZero; CoinInputs := []; CoinOutputs := [];
     BlockStakeInputs := []; BlockStakeOutputs := []; MinerFees := [];
     ArbitraryData := []; Extension := None |}.

(** Assignments to one field of a transaction. *)
Definition set_Version (v : TransactionVersion) (t : Transaction) : Transaction :=
  {| Version := v; CoinInputs := CoinInputs t; CoinOutputs := CoinOutputs t;
     BlockStakeInputs := BlockStakeInputs t; BlockStakeOutputs := BlockStakeOutputs t;
     MinerFees := MinerFees t; ArbitraryData := ArbitraryData t; Extension := Extension t |}.
Definition set_CoinInputs (x : list CoinInput) (t : Transaction) : Transaction :=
  {| Version := Version t; CoinInputs := x; CoinOutputs := CoinOutputs t;
     BlockStakeInputs := BlockStakeInputs t; BlockStakeOutputs := BlockStakeOutputs t;
     MinerFees := MinerFees t; ArbitraryData := ArbitraryData t; Extension := Extension t |}.
Definition set_CoinOutputs (x : list CoinOutput) (t : Transaction) : Transaction :=
  {| Version := Version t; CoinInputs := CoinInputs t; CoinOutputs := x;
     BlockStakeInputs := BlockStakeInputs t; BlockStakeOutputs := BlockStakeOutputs t;
     MinerFees := MinerFees t; ArbitraryData := ArbitraryData t; Extension := Extension t |}.
Definition set_BlockStakeInputs (x : list BlockStakeInput) (t : Transaction) : Transaction :=
  {| Version := Version t; CoinInputs := CoinInputs t; CoinOutputs := CoinOutputs t;
     BlockStakeInputs := x; BlockStakeOutputs := BlockStakeOutputs t;
     MinerFees := MinerFees t; ArbitraryData := ArbitraryData t; Extension := Extension t |}.
Definition set_BlockStakeOutputs (x : list BlockStakeOutput) (t : Transaction) : Transaction :=
  {| Version := Version t; CoinInputs := CoinInputs t; CoinOutputs := CoinOutputs t;
     BlockStakeInputs := BlockStakeInputs t; BlockStakeOutputs := x;
     MinerFees := MinerFees t; ArbitraryData := ArbitraryData t; Extension := Extension t |}.
Definition set_MinerFees (x : list (Currency T)) (t : Transaction) : Transaction :=
  {| Version := Version t; CoinInputs := CoinInputs t; CoinOutputs := CoinOutputs t;
     BlockStakeInputs := BlockStakeInputs t; BlockStakeOutputs := BlockStakeOutputs t;
     MinerFees := x; ArbitraryData := ArbitraryData t; Extension := Extension t |}.
Definition set_ArbitraryData (x : list byte) (t : Transaction) : Transaction :=
  {| Version := Version t; CoinInputs := CoinInputs t; CoinOutputs := CoinOutputs t;
     BlockStakeInputs := BlockStakeInputs t; BlockStakeOutputs := BlockStakeOutputs t;
     MinerFees := MinerFees t; ArbitraryData := x; Extension := Extension t |}.
Definition set_Extension (x : option (ExtensionValue T)) (t : Transaction) : Transaction :=
  {| Version := Version t; CoinInputs := CoinInputs t; CoinOutputs := CoinOutputs t;
     BlockStakeInputs := BlockStakeInputs t; BlockStakeOutputs := BlockStakeOutputs t;
     MinerFees := MinerFees t; ArbitraryData := ArbitraryData t; Extension := x |}.

(** [TransactionDataEncoder]: custom encoding of the transaction data,
    the version apart. *)
Record TransactionDataEncoder : Type := {
  EncodeTransactionData : Transaction -> result (list byte);
  JSONEncodeTransactionData : Transaction -> result (list byte);
}.

(** [TransactionDecoder]: both methods return a transaction and an error,
    and the callers assign both. *)
Record TransactionDecoder : Type := {
  DecodeTransactionData : TransactionVersion -> list byte -> Transaction * option error;
  JSONDecodeTransactionData : TransactionVersion -> list byte -> Transaction * option error;
}.

Record TransactionValidationContext : Type := {
  CurrentBlockHeight : BlockHeight;
  BlockSizeLimit : Z;
}.

(** [TransactionValidator] *)
Record TransactionValidator : Type := {
  validator_ValidateTransaction :
    TransactionValidationContext -> Transaction -> option error;
}.

(** [jsonTransaction], as [json.Unmarshal] fills it. *)
Record jsonTransaction : Type := {
  jt_Version : TransactionVersion;
  jt_Data : list byte;                     (* json.RawMessage *)
}.

(** [jsonLegacyTransactionVersion] *)
Record jsonLegacyTransactionVersion : Type := {
  jl_CoinInputs : list CoinInput;
  jl_CoinOutputs : list CoinOutput;
  jl_BlockstakeInputs : list BlockStakeInput;
  jl_BlockStakeOutputs : list BlockStakeOutput;
  jl_MinerFees : list (Currency T);
  jl_ArbitraryData : list byte;
}.

(** What the sources use of their collaborators and of the rest of the
    package, none of it under the sources read here. *)
Record Env : Type := {
  (* crypto: the hash of the bytes written to a crypto.NewHash() *)
  HashBytes : list byte -> Hash T;
  (* encoding: how each type of a core field is written and read *)
  codec_CoinInputs : Codec (list CoinInput);
  codec_CoinOutputs : Codec (list CoinOutput);
  codec_BlockStakeInputs : Codec (list BlockStakeInput);
  codec_BlockStakeOutputs : Codec (list BlockStakeOutput);
  codec_MinerFees : Codec (list (Currency T));
  codec_Bytes : Codec (list byte);
  (* encoding/json: json.Marshal of each type of a core field *)
  json_CoinInputs : list CoinInput -> result JSON;
  json_CoinOutputs : list CoinOutput -> result JSON;
  json_BlockStakeInputs : list BlockStakeInput -> result JSON;
  json_BlockStakeOutputs : list BlockStakeOutput -> result JSON;
  json_MinerFees : list (Currency T) -> result JSON;
  json_Bytes : list byte -> result JSON;
  (* encoding/json: what json.Marshal emits for a json.RawMessage of these
     bytes (the bytes compacted and HTML-escaped; null for a nil message,
     which is not told apart from an empty one here), or its error when
     they are not valid JSON *)
  json_RawMessage : list byte -> result (list byte);
  (* encoding/json: json.Unmarshal into the two helper structs *)
  json_Unmarshal_jsonTransaction : list byte -> result jsonTransaction;
  json_Unmarshal_jsonLegacy : list byte -> result jsonLegacyTransactionVersion;
  (* the type assertions on an extension value *)
  asTransactionDataEncoder : ExtensionValue T -> option TransactionDataEncoder;
  asTransactionValidator : ExtensionValue T -> option TransactionValidator;
  (* var _RegisteredTransactionDecoders map[TransactionVersion]TransactionDecoder *)
  _RegisteredTransactionDecoders : gmap TransactionVersion TransactionDecoder;
  (* func defaultTransactionValidation(ctx, t) error *)
  defaultTransactionValidation :
    TransactionValidationContext -> Transaction -> option error;
}.

Variable E : Env.

(** [t.Extension.(TransactionDataEncoder)] and
    [t.Extension.(TransactionValidator)]: a nil interface asserts to
    nothing. *)
Definition extension_encoder (t : Transaction) : option TransactionDataEncoder :=
  match Extension t with
  | None => None
  | Some x => asTransactionDataEncoder E x
  end.

Definition extension_validator (t : Transaction) : option TransactionValidator :=
  match Extension t with
  | None => None
  | Some x => asTransactionValidator E x
  end.

(** *** Binary encoding *)

(** [func (v TransactionVersion) MarshalSia(w io.Writer) error] *)
Definition TransactionVersion_MarshalSia (v : TransactionVersion) : list byte := [v].

(** [func (v *TransactionVersion) UnmarshalSia(r io.Reader) error]: the
    version is assigned from the one-byte buffer also when nothing was
    read. *)
Definition TransactionVersion_UnmarshalSia (r : list byte)
  : TransactionVersion * option error * list byte :=
  match r with
  | [] => (x00, Some EOF, [])
  | b :: r' => (b, None, r')
  end.

(** The encodings of the six core fields, one after the other: what
    [encoding.MarshalAll] returns for them, and what an encoder or
    [crypto.HashAll] writes for them. *)
Definition core_fields (t : Transaction) : list (list byte) :=
  [ Marshal (codec_CoinInputs E) (CoinInputs t);
    Marshal (codec_CoinOutputs E) (CoinOutputs t);
    Marshal (codec_BlockStakeInputs E) (BlockStakeInputs t);
    Marshal (codec_BlockStakeOutputs E) (BlockStakeOutputs t);
    Marshal (codec_MinerFees E) (MinerFees t);
    Marshal (codec_Bytes E) (ArbitraryData t) ].

(** [func (t Transaction) MarshalSia(w io.Writer) error], for a writer
    that cannot fail: the bytes written and the error returned. *)
Definition MarshalSia (t : Transaction) : list byte * option error :=
  match extension_encoder t with
  | Some encoder =>
      match EncodeTransactionData encoder t with
      | Err err => ([], Some err)
      | Ok rawData =>
          (TransactionVersion_MarshalSia (Version t) ++ Marshal (codec_Bytes E) rawData, None)
      end
  | None =>
      if Byte.eqb (Version t) TransactionVersionZero then
        (TransactionVersion_MarshalSia (Version t) ++ concat (core_fields t), None)
      else
        let rawData := concat (core_fields t) in
        (TransactionVersion_MarshalSia (Version t) ++ Marshal (codec_Bytes E) rawData, None)
  end.

(** The [rawData] of [MarshalSia] for a transaction that is not written
    flat: what the extension's encoder returns, or else the six core
    fields merged into one slice. *)
Definition transaction_data (t : Transaction) : result (list byte) :=
  match extension_encoder t with
  | Some encoder => EncodeTransactionData encoder t
  | None => Ok (concat (core_fields t))
  end.

(** The decoder gives each core field of a transaction back from its
    encoding. *)
Definition core_fields_decode (t : Transaction) : Prop :=
  decodes (codec_CoinInputs E) (CoinInputs t)
  /\ decodes (codec_CoinOutputs E) (CoinOutputs t)
  /\ decodes (codec_BlockStakeInputs E) (BlockStakeInputs t)
  /\ decodes (codec_BlockStakeOutputs E) (BlockStakeOutputs t)
  /\ decodes (codec_MinerFees E) (MinerFees t)
  /\ decodes (codec_Bytes E) (ArbitraryData t).

(** How a decoding call ends: the receiver as the call left it, with the
    bytes left in the reader, or with the error returned. *)
Inductive outcome : Type :=
| Decoded (t : Transaction) (rest : list byte)
| Failed (t : Transaction) (err : error).

(** One pointer of [decoder.DecodeAll(&t.F, ...)]: nothing more is decoded
    after an error. *)
Definition decode_into {A : Type} (c : Codec A) (set : A -> Transaction -> Transaction)
  (o : outcome) : outcome :=
  match o with
  | Failed t err => Failed t err
  | Decoded t r =>
      match Unmarshal c r with
      | Err err => Failed t err
      | Ok (a, r') => Decoded (set a t) r'
      end
  end.

(** Modelled from the spec: [unknownTransactionDecoder], declared in a file
    of the package that is not among the sources; a sentinel decoder whose
    methods fail with the invalid-version error, whatever the payload. *)
Definition unknownTransactionDecoder : TransactionDecoder :=
  {| DecodeTransactionData := fun _ _ => (zeroTransaction, Some ErrInvalidTransactionVersion);
     JSONDecodeTransactionData := fun _ _ => (zeroTransaction, Some ErrInvalidTransactionVersion) |}.

(** [dataDecoder, exists := _RegisteredTransactionDecoders[v]; if !exists
    { dataDecoder = unknownTransactionDecoder{} }] *)
Definition decoder_for (v : TransactionVersion) : TransactionDecoder :=
  match _RegisteredTransactionDecoders E !! v with
  | Some d => d
  | None => unknownTransactionDecoder
  end.

(** [func (t *Transaction) UnmarshalSia(r io.Reader) (err error)], from
    the receiver and the reader before the call. *)
Definition UnmarshalSia (t : Transaction) (r : list byte) : outcome :=
  let '(v, err, r1) := TransactionVersion_UnmarshalSia r in
  let t1 := set_Version v t in
  match err with
  | Some e => Failed t1 e
  | None =>
      if Byte.eqb (Version t1) TransactionVersionZero then
        decode_into (codec_Bytes E) set_ArbitraryData
          (decode_into (codec_MinerFees E) set_MinerFees
            (decode_into (codec_BlockStakeOutputs E) set_BlockStakeOutputs
              (decode_into (codec_BlockStakeInputs E) set_BlockStakeInputs
                (decode_into (codec_CoinOutputs E) set_CoinOutputs
                  (decode_into (codec_CoinInputs E) set_CoinInputs
                    (Decoded t1 r1))))))
      else
        match Unmarshal (codec_Bytes E) r1 with
        | Err e => Failed t1 e
        | Ok (rawData, r2) =>
            let '(t2, err2) := DecodeTransactionData (decoder_for (Version t1)) (Version t1) rawData in
            match err2 with
            | Some e => Failed t2 e
            | None => Decoded t2 r2
            end
        end
  end.

(** *** Identity *)

(** Modelled from the spec: [crypto.HashAll], of a package that is not
    among the sources; the hash of its arguments' encodings, in order. *)
Definition HashAll (objs : list (list byte)) : Hash T := HashBytes E (concat objs).

(** Modelled from the spec: a specifier is written as its bytes (a
    fixed-length tag prefixed before the hashed object), an output index as
    a [uint64]. *)
Definition Marshal_Specifier (s : Specifier) : list byte := s.
Definition Marshal_uint64 (i : Z) : list byte := EncUint64 i.

(** [func (t Transaction) ID() (id TransactionID)] *)
Definition ID (t : Transaction) : TransactionID :=
  if Byte.eqb (Version t) TransactionVersionZero then
    HashAll (core_fields t)
  else
    HashBytes E (fst (MarshalSia t)).

(** The arguments of [crypto.HashAll] in an output ID, encoded: the
    specifier, the transaction (flat for the legacy version, through its
    [MarshalSia] otherwise), the index. *)
Definition output_id_objs (spec : Specifier) (t : Transaction) (i : Z) : list (list byte) :=
  if Byte.eqb (Version t) TransactionVersionZero then
    Marshal_Specifier spec :: core_fields t ++ [Marshal_uint64 i]
  else
    [Marshal_Specifier spec; fst (MarshalSia t); Marshal_uint64 i].

(** [func (t Transaction) CoinOutputID(i uint64) CoinOutputID] *)
Definition Transaction_CoinOutputID (t : Transaction) (i : Z) : CoinOutputID :=
  HashAll (output_id_objs SpecifierCoinOutput t i).

(** [func (t Transaction) BlockStakeOutputID(i uint64) BlockStakeOutputID] *)
Definition Transaction_BlockStakeOutputID (t : Transaction) (i : Z) : BlockStakeOutputID :=
  HashAll (output_id_objs SpecifierBlockStakeOutput t i).

(** The bytes hashed for an output ID, and their part between the
    specifier and the index. *)
Definition CoinOutputID_input (t : Transaction) (i : Z) : list byte :=
  concat (output_id_objs SpecifierCoinOutput t i).
Definition BlockStakeOutputID_input (t : Transaction) (i : Z) : list byte :=
  concat (output_id_objs SpecifierBlockStakeOutput t i).
Definition output_id_body (t : Transaction) : list byte :=
  if Byte.eqb (Version t) TransactionVersionZero then concat (core_fields t)
  else fst (MarshalSia t).

(** Two different byte strings with the same hash. *)
Definition collision (x y : list byte) : Prop :=
  x <> y /\ HashBytes E x = HashBytes E y.

(** *** JSON encoding *)

(** The fields of [jsonLegacyTransactionVersion] with their tags. *)
Definition jsonLegacy_fields (d : jsonLegacyTransactionVersion) : list json_field :=
  [ {| jf_key := "coininputs"; jf_omitempty := false;
       jf_empty := is_empty (jl_CoinInputs d);
       jf_value := json_CoinInputs E (jl_CoinInputs d) |};
    {| jf_key := "coinoutputs"; jf_omitempty := true;
       jf_empty := is_empty (jl_CoinOutputs d);
       jf_value := json_CoinOutputs E (jl_CoinOutputs d) |};
    {| jf_key := "blockstakeinputs"; jf_omitempty := true;
       jf_empty := is_empty (jl_BlockstakeInputs d);
       jf_value := json_BlockStakeInputs E (jl_BlockstakeInputs d) |};
    {| jf_key := "blockstakeoutputs"; jf_omitempty := true;
       jf_empty := is_empty (jl_BlockStakeOutputs d);
       jf_value := json_BlockStakeOutputs E (jl_BlockStakeOutputs d) |};
    {| jf_key := "minerfees"; jf_omitempty := false;
       jf_empty := is_empty (jl_MinerFees d);
       jf_value := json_MinerFees E (jl_MinerFees d) |};
    {| jf_key := "arbitrarydata"; jf_omitempty := true;
       jf_empty := is_empty (jl_ArbitraryData d);
       jf_value := json_Bytes E (jl_ArbitraryData d) |} ].

(** A member of a marshalled struct whose tag says [omitempty]: left out
    when the field is empty. *)
Definition omitempty_member {A : Type} (key : string) (field : list A) (v : JSON)
  : list (string * JSON) :=
  if is_empty field then [] else [(key, v)].

(** [json.Marshal(jsonLegacyTransactionVersion{...})] *)
Definition json_Marshal_jsonLegacy (d : jsonLegacyTransactionVersion) : result JSON :=
  match json_Marshal_struct (jsonLegacy_fields d) with
  | Err e => Err e
  | Ok ms => Ok (JObject ms)
  end.

(** [json.Marshal(jsonTransaction{Version: v, Data: data})]: a raw message
    is written as [json.Marshal] emits it, and refused when it is not
    valid JSON; data that [json.Marshal] itself produced are embedded as
    they are. *)
Definition json_Marshal_jsonTransaction (v : TransactionVersion) (data : JSON) : result JSON :=
  match data with
  | JRaw raw =>
      match json_RawMessage E raw with
      | Err e => Err e
      | Ok emitted =>
          Ok (JObject [("version"%string, JNumber (Z_of_byte v));
                       ("data"%string, JRaw emitted)])
      end
  | _ => Ok (JObject [("version"%string, JNumber (Z_of_byte v)); ("data"%string, data)])
  end.

(** [func (t Transaction) MarshalJSON() ([]byte, error)] *)
Definition MarshalJSON (t : Transaction) : result JSON :=
  let data :=
    match extension_encoder t with
    | Some encoder =>
        match JSONEncodeTransactionData encoder t with
        | Err e => Err e
        | Ok raw => Ok (JRaw raw)
        end
    | None =>
        json_Marshal_jsonLegacy
          {| jl_CoinInputs := CoinInputs t;
             jl_CoinOutputs := CoinOutputs t;
             jl_BlockstakeInputs := BlockStakeInputs t;
             jl_BlockStakeOutputs := BlockStakeOutputs t;
             jl_MinerFees := MinerFees t;
             jl_ArbitraryData := ArbitraryData t |}
    end in
  match data with
  | Err err => Err err
  | Ok data => json_Marshal_jsonTransaction (Version t) data
  end.

(** [func (t *Transaction) UnmarshalJSON(b []byte) (err error)], from the
    receiver before the call: the receiver after it, and the error. *)
Definition UnmarshalJSON (t : Transaction) (b : list byte) : Transaction * option error :=
  match json_Unmarshal_jsonTransaction E b with
  | Err err => (t, Some err)
  | Ok txn =>
      if Byte.eqb (jt_Version txn) TransactionVersionZero then
        match json_Unmarshal_jsonLegacy E (jt_Data txn) with
        | Err err => (t, Some err)
        | Ok data =>
            ({| Version := jt_Version txn;
                CoinInputs := jl_CoinInputs data;
                CoinOutputs := jl_CoinOutputs data;
                BlockStakeInputs := jl_BlockstakeInputs data;
                BlockStakeOutputs := jl_BlockStakeOutputs data;
                MinerFees := jl_MinerFees data;
                ArbitraryData := jl_ArbitraryData data;
                Extension := Extension t |}, None)
        end
      else
        JSONDecodeTransactionData (decoder_for (jt_Version txn)) (jt_Version txn) (jt_Data txn)
  end.

(** *** Validation *)

(** The validation routines [ValidateTransaction] can call. *)
Inductive call : Type :=
| call_extension_ValidateTransaction
| call_defaultTransactionValidation.

(** [func (t Transaction) ValidateTransaction(ctx) error]: the error
    returned and the routines called, in order. *)
Definition ValidateTransaction (t : Transaction) (ctx : TransactionValidationContext)
  : option error * list call :=
  match extension_validator t with
  | Some validator =>
      (validator_ValidateTransaction validator ctx t, [call_extension_ValidateTransaction])
  | None =>
      (defaultTransactionValidation E ctx t, [call_defaultTransactionValidation])
  end.

(** [func (t Transaction) IsStandardTransaction() error] *)
Definition IsStandardTransaction (t : Transaction) : option error :=
  if Byte.eqb (Version t) TransactionVersionZero then None
  else match _RegisteredTransactionDecoders E !! Version t with
       | None => Some ErrInvalidTransactionVersion
       | Some _ => None
       end.

End Model.


(** ** More of the package *)

(** *** Transaction short IDs on the wire *)

(** [func (txsid TransactionShortID) MarshalSia(w io.Writer) error]: the
    bytes written. *)
Definition TransactionShortID_MarshalSia (txsid : TransactionShortID) : list byte :=
  EncUint64 (uint64 txsid).

(** [n, err := r.Read(b)] with [len(b) = size], for a reader that hands out
    the bytes it holds ([bytes.Reader], [bytes.Buffer]): the bytes copied
    to the front of [b], the error, the bytes left. Such a reader copies
    as many bytes as it has, up to [size], and returns [io.EOF] only when
    it has none. *)
Definition Reader_Read (size : nat) (r : list byte) : list byte * option error * list byte :=
  match r with
  | [] => ([], Some EOF, [])
  | _ :: _ => (firstn size r, None, skipn size r)
  end.

(** [func (txsid *TransactionShortID) UnmarshalSia(r io.Reader) error]:
    the receiver after the call, the error, the bytes left. The buffer is
    [make([]byte, 8)], zero where [Read] copied nothing. *)
Definition TransactionShortID_UnmarshalSia (txsid : TransactionShortID) (r : list byte)
  : TransactionShortID * option error * list byte :=
  let '(got, err, r') := Reader_Read 8 r in
  let b := got ++ repeat x00 (8 - length got) in
  match err with
  | Some e => (txsid, Some e, r')
  | None => (DecUint64 b, None, r')
  end.

(** [bytes.Compare(a, b) < 0]: the byte-wise (lexicographic) order of two
    byte strings. *)
Fixpoint bytes_before (a b : list byte) : bool :=
  match a, b with
  | _, [] => false
  | [], _ :: _ => true
  | x :: a', y :: b' =>
      if Z_of_byte x <? Z_of_byte y then true
      else if Z_of_byte y <? Z_of_byte x then false
      else bytes_before a' b'
  end.

(** *** Decoders that accept one encoding only *)

(** Whatever a decoder reads off a reader, the reader started with the
    encoding of the value read. *)
Definition canonical {A : Type} (c : Codec A) : Prop :=
  forall r a r', Unmarshal c r = Ok (a, r') -> r = Marshal c a ++ r'.

Section ModelMore.
Context {T : Types}.
Variable E : @Env T.

Definition core_codecs_canonical : Prop :=
  canonical (codec_CoinInputs E)
  /\ canonical (codec_CoinOutputs E)
  /\ canonical (codec_BlockStakeInputs E)
  /\ canonical (codec_BlockStakeOutputs E)
  /\ canonical (codec_MinerFees E)
  /\ canonical (codec_Bytes E).

(** The receiver as a decoding call left it. *)
Definition outcome_transaction (o : @outcome T) : Transaction :=
  match o with
  | Decoded t _ => t
  | Failed t _ => t
  end.

(** *** The sum of the coin outputs *)

(** [Currency] is declared in another file of the package: its zero value
    and its [Add] method. *)
Variable Currency_zero : Currency T.
Variable Currency_Add : Currency T -> Currency T -> Currency T.

(** [func (t Transaction) CoinOutputSum() (sum Currency)]: the two loops,
    each adding to [sum] from the left. *)
Definition CoinOutputSum (t : Transaction) : Currency T :=
  let sum := fold_left (fun sum sco => Currency_Add sum (co_Value sco))
               (CoinOutputs t) Currency_zero in
  fold_left (fun sum fee => Currency_Add sum fee) (MinerFees t) sum.

(** The total of a list of currency values, from the right. *)
Definition Currency_total (l : list (Currency T)) : Currency T :=
  fold_right Currency_Add Currency_zero l.

End ModelMore.

(** ** An instance for the examples

    A small world to run the definitions in: every opaque type is a byte
    string, variable-length values are written with a [uint64] length
    prefix, the hash is the identity (so it has no collision), and the
    extension values are test doubles. *)

Fixpoint read_bytes (n : nat) (r : list byte) : result (list byte * list byte) :=
  match n with
  | O => Ok ([], r)
  | S n' =>
      match r with
      | [] => Err (ErrExternal "unexpected EOF")
      | b :: r' =>
          match read_bytes n' r' with
          | Err e => Err e
          | Ok (bs, r'') => Ok (b :: bs, r'')
          end
      end
  end.

Definition write_prefixed (b : list byte) : list byte :=
  EncUint64 (Z.of_nat (length b)) ++ b.

Definition read_prefixed (r : list byte) : result (list byte * list byte) :=
  match read_bytes 8 r with
  | Err e => Err e
  | Ok (prefix, r') => read_bytes (Z.to_nat (DecUint64 prefix)) r'
  end.

Definition fixture_bytes : Codec (list byte) :=
  {| Marshal := write_prefixed; Unmarshal := read_prefixed |}.

(** A struct of two byte-string fields. *)
Definition fixture_pair {A : Type} (mk : list byte -> list byte -> A)
  (p1 p2 : A -> list byte) : Codec A :=
  {| Marshal := fun a => write_prefixed (p1 a) ++ write_prefixed (p2 a);
     Unmarshal := fun r =>
       match read_prefixed r with
       | Err e => Err e
       | Ok (x, r') =>
           match read_prefixed r' with
           | Err e => Err e
           | Ok (y, r'') => Ok (mk x y, r'')
           end
       end |}.

Fixpoint read_items {A : Type} (c : Codec A) (n : nat) (r : list byte)
  : result (list A * list byte) :=
  match n with
  | O => Ok ([], r)
  | S n' =>
      match Unmarshal c r with
      | Err e => Err e
      | Ok (a, r') =>
          match read_items c n' r' with
          | Err e => Err e
          | Ok (l, r'') => Ok (a :: l, r'')
          end
      end
  end.

(** A slice: the length, then the elements. *)
Definition fixture_slice {A : Type} (c : Codec A) : Codec (list A) :=
  {| Marshal := fun l => EncUint64 (Z.of_nat (length l)) ++ concat (map (Marshal c) l);
     Unmarshal := fun r =>
       match read_bytes 8 r with
       | Err e => Err e
       | Ok (prefix, r') => read_items c (Z.to_nat (DecUint64 prefix)) r'
       end |}.

(** The extension values of the examples. *)
Inductive double : Type :=
| double_validator (verdict : option error)   (* a TransactionValidator returning [verdict] *)
| double_encoder (raw : list byte)            (* a TransactionDataEncoder writing [raw] *)
| double_failing_encoder                      (* a TransactionDataEncoder that fails *)
| double_plain.                               (* a value with no capability *)

Definition fixtureTypes : Types :=
  {| Currency := list byte; UnlockHash := list byte; InputLockProxy := list byte;
     Hash := list byte; ExtensionValue := double |}.

Definition fixture_asEncoder (x : ExtensionValue fixtureTypes)
  : option (@TransactionDataEncoder fixtureTypes) :=
  match x with
  | double_encoder raw =>
      Some {| EncodeTransactionData := fun _ => Ok raw;
              JSONEncodeTransactionData := fun _ => Ok raw |}
  | double_failing_encoder =>
      Some {| EncodeTransactionData := fun _ => Err (ErrExternal "cannot encode");
              JSONEncodeTransactionData := fun _ => Err (ErrExternal "cannot encode") |}
  | _ => None
  end.

Definition fixture_asValidator (x : ExtensionValue fixtureTypes)
  : option (@TransactionValidator fixtureTypes) :=
  match x with
  | double_validator verdict =>
      Some {| validator_ValidateTransaction := fun _ _ => verdict |}
  | _ => None
  end.

Definition fixture_json_pairs {A : Type} (k1 k2 : string) (p1 p2 : A -> list byte)
  (l : list A) : result JSON :=
  Ok (JArray (map (fun a => JObject [(k1, JString (p1 a)); (k2, JString (p2 a))]) l)).

(** What the examples take for [json.Marshal] of a raw message: text that
    opens with a brace is valid and is emitted without its blanks,
    anything else is refused. *)
Definition fixture_RawMessage (raw : list byte) : result (list byte) :=
  match raw with
  | x7b :: _ => Ok (List.filter (fun b => negb (Byte.eqb b x20)) raw)
  | _ => Err (ErrExternal "json: error calling MarshalJSON for type json.RawMessage")
  end.

(** The world of the examples, for a given table of registered decoders.
    Its default validation accepts nothing; it reads a JSON envelope as
    the version byte followed by the data, and no legacy data at all. *)
Definition fixtureEnv (registered : gmap TransactionVersion (@TransactionDecoder fixtureTypes))
  : @Env fixtureTypes :=
  {| HashBytes := fun b : list byte => (b : Hash fixtureTypes);
     codec_CoinInputs := fixture_slice (fixture_pair (@Build_CoinInput fixtureTypes) (@ci_ParentID fixtureTypes) (@ci_Unlocker fixtureTypes));
     codec_CoinOutputs := fixture_slice (fixture_pair (@Build_CoinOutput fixtureTypes) (@co_Value fixtureTypes) (@co_UnlockHash fixtureTypes));
     codec_BlockStakeInputs :=
       fixture_slice (fixture_pair (@Build_BlockStakeInput fixtureTypes) (@bsi_ParentID fixtureTypes) (@bsi_Unlocker fixtureTypes));
     codec_BlockStakeOutputs :=
       fixture_slice (fixture_pair (@Build_BlockStakeOutput fixtureTypes) (@bso_Value fixtureTypes) (@bso_UnlockHash fixtureTypes));
     codec_MinerFees := fixture_slice fixture_bytes;
     codec_Bytes := fixture_bytes;
     json_CoinInputs := fixture_json_pairs "parentid" "unlocker" (@ci_ParentID fixtureTypes) (@ci_Unlocker fixtureTypes);
     json_CoinOutputs := fixture_json_pairs "value" "unlockhash" (@co_Value fixtureTypes) (@co_UnlockHash fixtureTypes);
     json_BlockStakeInputs := fixture_json_pairs "parentid" "unlocker" (@bsi_ParentID fixtureTypes) (@bsi_Unlocker fixtureTypes);
     json_BlockStakeOutputs := fixture_json_pairs "value" "unlockhash" (@bso_Value fixtureTypes) (@bso_UnlockHash fixtureTypes);
     json_MinerFees := fun l : list (list byte) => Ok (JArray (map JString l));
     json_Bytes := fun b : list byte => Ok (JString b);
     json_RawMessage := fixture_RawMessage;
     json_Unmarshal_jsonTransaction := fun b =>
       match b with
       | [] => Err (ErrExternal "unexpected end of JSON input")
       | v :: data => Ok {| jt_Version := v; jt_Data := data |}
       end;
     json_Unmarshal_jsonLegacy := fun _ => Err (ErrExternal "unexpected end of JSON input");
     asTransactionDataEncoder := fixture_asEncoder;
     asTransactionValidator := fixture_asValidator;
     _RegisteredTransactionDecoders := registered;
     defaultTransactionValidation := fun _ _ => Some (ErrExternal "rejected by default validation") |}.

(** A decoder for a version whose transactions carry no core data: it
    returns an empty transaction of that version, whatever the payload. *)
Definition fixture_decoder : @TransactionDecoder fixtureTypes :=
  {| DecodeTransactionData := fun v _ => (set_Version v zeroTransaction, None);
     JSONDecodeTransactionData := fun v _ => (set_Version v zeroTransaction, None) |}.

(** A legacy transaction: one coin output, one miner fee, two bytes of
    arbitrary data. *)
Definition legacy_tx : @Transaction fixtureTypes :=
  @Build_Transaction fixtureTypes
    TransactionVersionZero
    []
    [ @Build_CoinOutput fixtureTypes [x0a] [x01; x02] ]
    []
    []
    [ [x02] ]
    [x68; x69]
    None.

(** The same data under version 1. *)
Definition v1_tx : @Transaction fixtureTypes := set_Version x01 legacy_tx.

Definition fixture_ctx : TransactionValidationContext :=
  {| CurrentBlockHeight := 12345; BlockSizeLimit := 2000000 |}.

(** A specifier without a zero byte. *)
Definition full_specifier : Specifier := list_byte_of_string "0123456789abcdef".

(** The legacy transaction carrying a validator that rejects everything,
    and carrying an encoder that writes one byte. *)
Definition validated_tx : @Transaction fixtureTypes :=
  @set_Extension fixtureTypes (Some (double_validator (Some (ErrExternal "rejected by the extension"))))
    legacy_tx.
Definition encoder_tx : @Transaction fixtureTypes :=
  @set_Extension fixtureTypes (Some (double_encoder [x01])) legacy_tx.

(** Two worlds: no decoder registered, and [fixture_decoder] registered
    for version 1. *)
Definition world_unregistered : @Env fixtureTypes := fixtureEnv ∅.
Definition world_registered : @Env fixtureTypes := fixtureEnv {[ x01 := fixture_decoder ]}.

(** A world whose currency is a natural number, to run [CoinOutputSum]. *)
Definition countingTypes : Types :=
  {| Currency := N; UnlockHash := list byte; InputLockProxy := list byte;
     Hash := list byte; ExtensionValue := double |}.

(** Coin outputs of 10 and 5, a miner fee of 2. *)
Definition counted_tx : @Transaction countingTypes :=
  @Build_Transaction countingTypes
    TransactionVersionZero
    []
    [ @Build_CoinOutput countingTypes 10%N [x01]; @Build_CoinOutput countingTypes 5%N [x02] ]
    []
    []
    [ 2%N ]
    []
    None.

(** A version 1 transaction whose encoder extension fails, and the legacy
    transaction with an encoder whose data are the JSON text
    [{ "a" : 1 }]. *)
Definition failing_tx : @Transaction fixtureTypes :=
  @set_Extension fixtureTypes (Some double_failing_encoder) v1_tx.
Definition json_encoder_tx : @Transaction fixtureTypes :=
  @set_Extension fixtureTypes
    (Some (double_encoder [x7b; x20; x22; x61; x22; x20; x3a; x20; x31; x20; x7d]))
    legacy_tx.
(** * Properties *)

(** ** Transaction short IDs *)

Lemma land_shifted_ones (x n k : Z) :
  0 <= n -> 0 <= k ->
  Z.land x (Z.shiftl (Z.ones k) n) = (Z.shiftr x n mod 2 ^ k) * 2 ^ n.
Proof.
  intros Hn Hk.
  rewrite <- Z.land_ones, <- Z.shiftl_mul_pow2 by assumption.
  apply Z.bits_inj'. intros i Hi.
  rewrite Z.land_spec, !Z.shiftl_spec by assumption.
  destruct (Z.ltb_spec i n) as [Hlt | Hge].
  - rewrite !(Z.testbit_neg_r _ (i - n)) by lia. apply andb_false_r.
  - rewrite Z.land_spec, Z.shiftr_spec by lia.
    replace (i - n + n) with i by lia. reflexivity.
Qed.

Lemma blockHeight_oob_check (h : Z) :
  is_uint64 h ->
  (Z.land h blockHeightOOBMask >? 0) = true <-> 2 ^ 50 <= h.
Proof.
  unfold is_uint64. intros Hh.
  change blockHeightOOBMask with (Z.shiftl (Z.ones 14) 50).
  rewrite land_shifted_ones by lia.
  rewrite Z.shiftr_div_pow2 by lia.
  assert (Hq : 0 <= h / 2 ^ 50 < 2 ^ 14).
  { split; [apply Z.div_pos; lia | apply Z.div_lt_upper_bound; lia]. }
  rewrite Z.mod_small by assumption.
  pose proof (Z.div_mod h (2 ^ 50) ltac:(lia)) as Hdm.
  pose proof (Z.mod_pos_bound h (2 ^ 50) ltac:(lia)) as Hr.
  rewrite Z.gtb_ltb, Z.ltb_lt. lia.
Qed.

Lemma txSeqIndex_oob_check (s : Z) :
  is_uint16 s ->
  (Z.land s txSeqIndexOOBMask >? 0) = true <-> 2 ^ 14 <= s.
Proof.
  unfold is_uint16. intros Hs.
  change txSeqIndexOOBMask with (Z.shiftl (Z.ones 2) 14).
  rewrite land_shifted_ones by lia.
  rewrite Z.shiftr_div_pow2 by lia.
  assert (Hq : 0 <= s / 2 ^ 14 < 2 ^ 2).
  { split; [apply Z.div_pos; lia | apply Z.div_lt_upper_bound; lia]. }
  rewrite Z.mod_small by assumption.
  pose proof (Z.div_mod s (2 ^ 14) ltac:(lia)) as Hdm.
  pose proof (Z.mod_pos_bound s (2 ^ 14) ltac:(lia)) as Hr.
  rewrite Z.gtb_ltb, Z.ltb_lt. lia.
Qed.

(** Within the bounds the constructor returns, and the identifier is the
    height shifted past the 14 bits of the sequence index, plus the index. *)
Lemma NewTransactionShortID_in_range (h s : Z) :
  0 <= h < 2 ^ 50 -> 0 <= s < 2 ^ 14 ->
  NewTransactionShortID h s = Return (Z.lor (Z.shiftl h 14) s).
Proof.
  intros Hh Hs. unfold NewTransactionShortID.
  destruct (Z.land h blockHeightOOBMask >? 0) eqn:Eh.
  { apply blockHeight_oob_check in Eh; [lia | unfold is_uint64; lia]. }
  destruct (Z.land s txSeqIndexOOBMask >? 0) eqn:Es.
  { apply txSeqIndex_oob_check in Es; [lia | unfold is_uint16; lia]. }
  f_equal. unfold uint64, txShortIDBlockHeightShift.
  change txSeqIndexMaxMask with (Z.ones 14).
  rewrite Z.land_ones, Z.shiftl_mul_pow2 by lia.
  rewrite !Z.mod_small by lia. reflexivity.
Qed.

Lemma shortID_high_bits (h s : Z) :
  0 <= h -> 0 <= s < 2 ^ 14 ->
  Z.shiftr (Z.lor (Z.shiftl h 14) s) 14 = h.
Proof.
  intros Hh Hs.
  rewrite Z.shiftr_lor, Z.shiftr_shiftl_l by lia.
  rewrite (Z.shiftr_div_pow2 s) by lia.
  rewrite (Z.div_small s) by lia.
  rewrite Z.sub_diag, Z.shiftl_0_r. apply Z.lor_0_r.
Qed.

Lemma shortID_low_bits (h s : Z) :
  0 <= h -> 0 <= s < 2 ^ 14 ->
  Z.land (Z.lor (Z.shiftl h 14) s) (Z.ones 14) = s.
Proof.
  intros Hh Hs.
  rewrite Z.land_lor_distr_l, !Z.land_ones by lia.
  rewrite Z.shiftl_mul_pow2 by lia.
  rewrite Z.mod_mul by lia.
  rewrite Z.mod_small by lia. reflexivity.
Qed.

Lemma shortID_value (h s : Z) :
  0 <= h -> 0 <= s < 2 ^ 14 ->
  Z.lor (Z.shiftl h 14) s = h * 2 ^ 14 + s.
Proof.
  intros Hh Hs.
  pose proof (Z.div_mod (Z.lor (Z.shiftl h 14) s) (2 ^ 14) ltac:(lia)) as Hdm.
  rewrite <- Z.shiftr_div_pow2, <- Z.land_ones in Hdm by lia.
  rewrite shortID_high_bits, shortID_low_bits in Hdm by assumption.
  lia.
Qed.

(** C6: [NewTransactionShortID] panics exactly when a bound is violated:
    for a [uint64] height and a [uint16] sequence index it panics if and
    only if the height is at least 2^50 or the index at least 2^14. *)
Theorem NewTransactionShortID_panics_iff (height txSequenceID : Z) :
  is_uint64 height -> is_uint16 txSequenceID ->
  (exists msg, NewTransactionShortID height txSequenceID = Panic msg)
  <-> (2 ^ 50 <= height \/ 2 ^ 14 <= txSequenceID).
Proof.
  intros Hh Hs.
  pose proof (blockHeight_oob_check height Hh) as Hcheck_h.
  pose proof (txSeqIndex_oob_check txSequenceID Hs) as Hcheck_s.
  unfold NewTransactionShortID.
  destruct (Z.land height blockHeightOOBMask >? 0).
  - split; [intros _; left; apply Hcheck_h; reflexivity | intros _; eauto].
  - destruct (Z.land txSequenceID txSeqIndexOOBMask >? 0).
    + split; [intros _; right; apply Hcheck_s; reflexivity | intros _; eauto].
    + split.
      * intros [msg Hm]. discriminate Hm.
      * intros [Hb | Hb]; [apply Hcheck_h in Hb | apply Hcheck_s in Hb]; discriminate Hb.
Qed.

Lemma NewTransactionShortID_panics_iff_witness :
  (exists msg, NewTransactionShortID (2 ^ 50) 0 = Panic msg)
  <-> (2 ^ 50 <= 2 ^ 50 \/ 2 ^ 14 <= 0).
Proof.
  apply (NewTransactionShortID_panics_iff (2 ^ 50) 0); unfold is_uint64, is_uint16; lia.
Defined.

(** C7: for a height below 2^50 and a sequence index below 2^14 the
    constructor returns an identifier whose [BlockHeight] and
    [TransactionSequenceIndex] are the two components. *)
Theorem ShortID_packing_roundtrip (h s : Z) :
  0 <= h < 2 ^ 50 -> 0 <= s < 2 ^ 14 ->
  exists txsid,
    NewTransactionShortID h s = Return txsid
    /\ ShortID_BlockHeight txsid = h
    /\ ShortID_TransactionSequenceIndex txsid = s.
Proof.
  intros Hh Hs. exists (Z.lor (Z.shiftl h 14) s).
  split; [apply NewTransactionShortID_in_range; assumption | split].
  - unfold ShortID_BlockHeight, txShortIDBlockHeightShift.
    apply shortID_high_bits; lia.
  - unfold ShortID_TransactionSequenceIndex, uint16.
    change txSeqIndexMaxMask with (Z.ones 14).
    rewrite shortID_low_bits by lia. apply Z.mod_small; lia.
Qed.

Lemma ShortID_packing_roundtrip_witness :
  exists txsid,
    NewTransactionShortID 12345 42 = Return txsid
    /\ ShortID_BlockHeight txsid = 12345
    /\ ShortID_TransactionSequenceIndex txsid = 42.
Proof.
  apply (ShortID_packing_roundtrip 12345 42); lia.
Defined.

(** C8: for in-range pairs the identifiers compare, as unsigned integers,
    the way the pairs do in chain order. *)
Theorem ShortID_order_preserving (h1 s1 h2 s2 : Z) :
  0 <= h1 < 2 ^ 50 -> 0 <= s1 < 2 ^ 14 ->
  0 <= h2 < 2 ^ 50 -> 0 <= s2 < 2 ^ 14 ->
  exists id1 id2,
    NewTransactionShortID h1 s1 = Return id1
    /\ NewTransactionShortID h2 s2 = Return id2
    /\ is_uint64 id1 /\ is_uint64 id2
    /\ (id1 < id2 <-> chain_before h1 s1 h2 s2).
Proof.
  intros Hh1 Hs1 Hh2 Hs2.
  exists (Z.lor (Z.shiftl h1 14) s1), (Z.lor (Z.shiftl h2 14) s2).
  rewrite !NewTransactionShortID_in_range by assumption.
  rewrite !shortID_value by lia.
  unfold is_uint64, chain_before.
  repeat split; try reflexivity; try lia.
Qed.

Lemma ShortID_order_preserving_witness :
  exists id1 id2,
    NewTransactionShortID 7 16383 = Return id1
    /\ NewTransactionShortID 8 0 = Return id2
    /\ is_uint64 id1 /\ is_uint64 id2
    /\ (id1 < id2 <-> chain_before 7 16383 8 0).
Proof.
  apply (ShortID_order_preserving 7 16383 8 0); lia.
Defined.

(** ** Specifiers *)

Lemma range_loop_break (rest : list byte) (idx i : nat) :
  In x00 rest ->
  range_loop rest idx i = (idx + length (before_first_zero rest))%nat.
Proof.
  revert idx i. induction rest as [| b rest IH]; intros idx i Hin.
  - destruct Hin.
  - simpl. destruct (Byte.eqb b x00) eqn:Eb.
    + simpl. lia.
    + apply Byte.eqb_false in Eb.
      destruct Hin as [Hb | Hin]; [congruence |].
      rewrite (IH (S idx) idx Hin). simpl. lia.
Qed.

Lemma range_loop_no_break (rest : list byte) (idx i : nat) :
  ~ In x00 rest ->
  range_loop rest idx i =
    match rest with [] => i | _ :: _ => (idx + length rest - 1)%nat end.
Proof.
  revert idx i. induction rest as [| b rest IH]; intros idx i Hnin.
  - reflexivity.
  - simpl. destruct (Byte.eqb b x00) eqn:Eb.
    + apply Byte.byte_dec_bl in Eb. exfalso. apply Hnin. left. exact Eb.
    + rewrite IH by (intros Hin; apply Hnin; right; exact Hin).
      destruct rest; simpl; lia.
Qed.

Lemma firstn_before_first_zero (s : list byte) :
  firstn (length (before_first_zero s)) s = before_first_zero s.
Proof.
  induction s as [| b s IH]; simpl; [reflexivity |].
  destruct (Byte.eqb b x00); simpl; [reflexivity | now rewrite IH].
Qed.

Lemma before_first_zero_no_zero (s : list byte) :
  ~ In x00 s -> before_first_zero s = s.
Proof.
  induction s as [| b s IH]; intros Hnin; simpl; [reflexivity |].
  destruct (Byte.eqb b x00) eqn:Eb.
  - apply Byte.byte_dec_bl in Eb. exfalso. apply Hnin. left. exact Eb.
  - rewrite IH; [reflexivity | intros Hin; apply Hnin; right; exact Hin].
Qed.

(** What [String] returns: the prefix before the first zero byte when there
    is one, and otherwise the specifier without its last byte. *)
Lemma Specifier_String_cases (s : Specifier) :
  (In x00 s -> Specifier_String s = before_first_zero s)
  /\ (~ In x00 s -> Specifier_String s = removelast s).
Proof.
  unfold Specifier_String. split; intros H.
  - rewrite range_loop_break by assumption. apply firstn_before_first_zero.
  - rewrite range_loop_no_break by assumption.
    rewrite removelast_firstn_len.
    destruct s; simpl; [reflexivity |].
    now rewrite Nat.sub_0_r.
Qed.

(** C5 (where the code departs from it): on a specifier of sixteen non-zero
    bytes, which [LoadString] accepts, [String] returns the first fifteen
    bytes only, and [MarshalJSON] emits those fifteen. *)
Theorem Specifier_String_drops_last_byte :
  wf_Specifier full_specifier
  /\ before_first_zero full_specifier = full_specifier
  /\ Specifier_LoadString (repeat x00 SpecifierLen) (list_byte_of_string "0123456789abcdef")
     = Ok full_specifier
  /\ Specifier_String full_specifier = list_byte_of_string "0123456789abcde"
  /\ Specifier_MarshalJSON full_specifier
     = Ok (JString (list_byte_of_string "0123456789abcde")).
Proof.
  assert (Hnz : ~ In x00 full_specifier).
  { intros Hin. vm_compute in Hin. intuition discriminate. }
  destruct (Specifier_String_cases full_specifier) as [_ Hfull].
  specialize (Hfull Hnz).
  split; [reflexivity |].
  split; [apply before_first_zero_no_zero; exact Hnz |].
  split; [reflexivity |].
  split.
  - rewrite Hfull. reflexivity.
  - unfold Specifier_MarshalJSON. rewrite Hfull. reflexivity.
Qed.

(** ** The little-endian integer encoding *)

Lemma Z_of_byte_of_Z (z : Z) : Z_of_byte (byte_of_Z z) = z mod 256.
Proof.
  unfold Z_of_byte, byte_of_Z.
  pose proof (Z.mod_pos_bound z 256 ltac:(lia)) as Hm.
  destruct (Byte.of_N (Z.to_N (z mod 256))) as [b |] eqn:Eb.
  - apply Byte.to_of_N in Eb. rewrite Eb. lia.
  - apply Byte.of_N_None_iff in Eb. lia.
Qed.

Lemma le_value_le_bytes (n : nat) (z : Z) :
  le_value (le_bytes n z) = z mod 256 ^ Z.of_nat n.
Proof.
  revert z. induction n as [| n IH]; intros z.
  - simpl. now rewrite Z.mod_1_r.
  - cbn [le_bytes le_value]. rewrite IH, Z_of_byte_of_Z.
    rewrite Nat2Z.inj_succ, Z.pow_succ_r by lia.
    rewrite Z.rem_mul_r by lia. reflexivity.
Qed.

Lemma length_le_bytes (n : nat) (z : Z) : length (le_bytes n z) = n.
Proof. revert z. induction n; intros z; simpl; [reflexivity | now rewrite IHn]. Qed.

Lemma DecUint64_EncUint64 (z : Z) : DecUint64 (EncUint64 z) = uint64 z.
Proof.
  unfold DecUint64, EncUint64, uint64.
  rewrite firstn_all2 by (rewrite length_le_bytes; lia).
  apply le_value_le_bytes.
Qed.

Lemma EncUint64_inj (i j : Z) :
  is_uint64 i -> is_uint64 j -> EncUint64 i = EncUint64 j -> i = j.
Proof.
  unfold is_uint64. intros Hi Hj Heq.
  apply (f_equal DecUint64) in Heq.
  rewrite !DecUint64_EncUint64 in Heq. unfold uint64 in Heq.
  rewrite !Z.mod_small in Heq by assumption. exact Heq.
Qed.

(** ** Transactions *)

Section TransactionProperties.
Context {T : Types}.
Variable E : @Env T.
Implicit Types t recv : @Transaction T.

Lemma version_eqb_zero (v : TransactionVersion) :
  v = TransactionVersionZero -> Byte.eqb v TransactionVersionZero = true.
Proof. intros ->. reflexivity. Qed.

Lemma version_eqb_nonzero (v : TransactionVersion) :
  v <> TransactionVersionZero -> Byte.eqb v TransactionVersionZero = false.
Proof.
  intros Hv. destruct (Byte.eqb v TransactionVersionZero) eqn:Ev; [| reflexivity].
  apply Byte.byte_dec_bl in Ev. contradiction.
Qed.

Lemma set_Extension_same t : set_Extension (Extension t) t = t.
Proof. destruct t. reflexivity. Qed.

(** *** What [MarshalSia] writes *)

Lemma MarshalSia_legacy t :
  Version t = TransactionVersionZero -> extension_encoder E t = None ->
  MarshalSia E t = (Version t :: concat (core_fields E t), None).
Proof.
  intros Hv Henc. unfold MarshalSia. rewrite Henc.
  rewrite (version_eqb_zero _ Hv). reflexivity.
Qed.

Lemma MarshalSia_versioned t payload :
  Version t <> TransactionVersionZero -> transaction_data E t = Ok payload ->
  MarshalSia E t = (Version t :: Marshal (codec_Bytes E) payload, None).
Proof.
  intros Hv Hdata. unfold MarshalSia, transaction_data in *.
  destruct (extension_encoder E t) as [encoder |].
  - rewrite Hdata. reflexivity.
  - rewrite (version_eqb_nonzero _ Hv). injection Hdata as <-. reflexivity.
Qed.

Lemma MarshalSia_success t :
  Version t <> TransactionVersionZero -> snd (MarshalSia E t) = None ->
  exists payload, transaction_data E t = Ok payload.
Proof.
  intros Hv Hok. unfold MarshalSia, transaction_data in *.
  destruct (extension_encoder E t) as [encoder |]; [| eauto].
  destruct (EncodeTransactionData encoder t) as [raw | err]; [eauto | discriminate Hok].
Qed.

Lemma concat_core_fields t :
  concat (core_fields E t)
  = Marshal (codec_CoinInputs E) (CoinInputs t)
    ++ Marshal (codec_CoinOutputs E) (CoinOutputs t)
    ++ Marshal (codec_BlockStakeInputs E) (BlockStakeInputs t)
    ++ Marshal (codec_BlockStakeOutputs E) (BlockStakeOutputs t)
    ++ Marshal (codec_MinerFees E) (MinerFees t)
    ++ Marshal (codec_Bytes E) (ArbitraryData t).
Proof.
  unfold core_fields. cbn [concat]. rewrite app_nil_r. reflexivity.
Qed.

Lemma MarshalSia_encoder_error t encoder err :
  extension_encoder E t = Some encoder ->
  EncodeTransactionData encoder t = Err err ->
  MarshalSia E t = ([], Some err).
Proof.
  intros Henc Herr. unfold MarshalSia. rewrite Henc, Herr. reflexivity.
Qed.

(** C1, as the code has it: the bytes hashed for the transaction ID.
    Version 0: the encodings of coin inputs, coin outputs, blockstake
    inputs, blockstake outputs, miner fees and arbitrary data, in that
    order and with no version byte: what [MarshalSia] writes after the
    version byte 0 when there is no encoder extension. Any other version:
    the bytes [MarshalSia] writes, which are the version byte followed by
    one length-prefixed slice (the six encodings in the same order, or
    what the extension's encoder returned); and when the extension's
    encoder fails, nothing is written and the ID is the hash of no bytes. *)
Theorem ID_hash_input_by_version t :
  (Version t = TransactionVersionZero ->
     ID E t = HashBytes E
                (Marshal (codec_CoinInputs E) (CoinInputs t)
                 ++ Marshal (codec_CoinOutputs E) (CoinOutputs t)
                 ++ Marshal (codec_BlockStakeInputs E) (BlockStakeInputs t)
                 ++ Marshal (codec_BlockStakeOutputs E) (BlockStakeOutputs t)
                 ++ Marshal (codec_MinerFees E) (MinerFees t)
                 ++ Marshal (codec_Bytes E) (ArbitraryData t))
     /\ (extension_encoder E t = None ->
         MarshalSia E t
         = (x00 :: (Marshal (codec_CoinInputs E) (CoinInputs t)
                 ++ Marshal (codec_CoinOutputs E) (CoinOutputs t)
                 ++ Marshal (codec_BlockStakeInputs E) (BlockStakeInputs t)
                 ++ Marshal (codec_BlockStakeOutputs E) (BlockStakeOutputs t)
                 ++ Marshal (codec_MinerFees E) (MinerFees t)
                 ++ Marshal (codec_Bytes E) (ArbitraryData t)),
            None)))
  /\ (Version t <> TransactionVersionZero ->
      (extension_encoder E t = None ->
         MarshalSia E t
         = (Version t :: Marshal (codec_Bytes E)
                (Marshal (codec_CoinInputs E) (CoinInputs t)
                 ++ Marshal (codec_CoinOutputs E) (CoinOutputs t)
                 ++ Marshal (codec_BlockStakeInputs E) (BlockStakeInputs t)
                 ++ Marshal (codec_BlockStakeOutputs E) (BlockStakeOutputs t)
                 ++ Marshal (codec_MinerFees E) (MinerFees t)
                 ++ Marshal (codec_Bytes E) (ArbitraryData t)),
            None)
         /\ ID E t
            = HashBytes E
                (Version t :: Marshal (codec_Bytes E)
                (Marshal (codec_CoinInputs E) (CoinInputs t)
                 ++ Marshal (codec_CoinOutputs E) (CoinOutputs t)
                 ++ Marshal (codec_BlockStakeInputs E) (BlockStakeInputs t)
                 ++ Marshal (codec_BlockStakeOutputs E) (BlockStakeOutputs t)
                 ++ Marshal (codec_MinerFees E) (MinerFees t)
                 ++ Marshal (codec_Bytes E) (ArbitraryData t))))
      /\ (forall encoder rawData,
            extension_encoder E t = Some encoder ->
            EncodeTransactionData encoder t = Ok rawData ->
            MarshalSia E t = (Version t :: Marshal (codec_Bytes E) rawData, None)
            /\ ID E t = HashBytes E (Version t :: Marshal (codec_Bytes E) rawData))
      /\ (forall encoder err,
            extension_encoder E t = Some encoder ->
            EncodeTransactionData encoder t = Err err ->
            MarshalSia E t = ([], Some err)
            /\ ID E t = HashBytes E [])).
Proof.
  split; intros Hv.
  - split.
    + unfold ID, HashAll. rewrite (version_eqb_zero _ Hv), concat_core_fields. reflexivity.
    + intros Henc. rewrite (MarshalSia_legacy t Hv Henc), Hv, concat_core_fields.
      reflexivity.
  - assert (Hid : ID E t = HashBytes E (fst (MarshalSia E t))).
    { unfold ID. rewrite (version_eqb_nonzero _ Hv). reflexivity. }
    split; [| split].
    + intros Henc.
      assert (Hdata : transaction_data E t = Ok (concat (core_fields E t))).
      { unfold transaction_data. rewrite Henc. reflexivity. }
      rewrite Hid, (MarshalSia_versioned t _ Hv Hdata), concat_core_fields.
      split; reflexivity.
    + intros encoder rawData Henc Hraw.
      assert (Hdata : transaction_data E t = Ok rawData).
      { unfold transaction_data. rewrite Henc. exact Hraw. }
      rewrite Hid, (MarshalSia_versioned t _ Hv Hdata). split; reflexivity.
    + intros encoder err Henc Herr.
      rewrite Hid, (MarshalSia_encoder_error t encoder err Henc Herr). split; reflexivity.
Qed.

(** *** Decoding what [MarshalSia] wrote *)

Lemma decode_into_decodes {A : Type} (c : Codec A) (set : A -> Transaction -> Transaction)
  (a : A) t rest :
  decodes c a ->
  decode_into c set (Decoded t (Marshal c a ++ rest)) = Decoded (set a t) rest.
Proof. intros Hdec. unfold decode_into. rewrite Hdec. reflexivity. Qed.

Lemma UnmarshalSia_legacy t recv rest :
  Version t = TransactionVersionZero -> extension_encoder E t = None ->
  core_fields_decode E t ->
  UnmarshalSia E recv (fst (MarshalSia E t) ++ rest)
  = Decoded (set_Extension (Extension recv) t) rest.
Proof.
  intros Hv Henc (Hci & Hco & Hbi & Hbo & Hmf & Had).
  rewrite (MarshalSia_legacy t Hv Henc). cbn [fst].
  unfold UnmarshalSia, core_fields. cbn [app TransactionVersion_UnmarshalSia concat].
  cbn [set_Version Version]. rewrite (version_eqb_zero _ Hv).
  rewrite app_nil_r, <- !app_assoc.
  rewrite !decode_into_decodes by assumption.
  destruct t, recv. reflexivity.
Qed.

Lemma UnmarshalSia_versioned t recv rest payload :
  Version t <> TransactionVersionZero -> transaction_data E t = Ok payload ->
  decodes (codec_Bytes E) payload ->
  UnmarshalSia E recv (fst (MarshalSia E t) ++ rest)
  = match DecodeTransactionData (decoder_for E (Version t)) (Version t) payload with
    | (t', None) => Decoded t' rest
    | (t', Some err) => Failed t' err
    end.
Proof.
  intros Hv Hdata Hdec.
  rewrite (MarshalSia_versioned t payload Hv Hdata). cbn [fst].
  unfold UnmarshalSia. cbn [app TransactionVersion_UnmarshalSia].
  cbn [set_Version Version]. rewrite (version_eqb_nonzero _ Hv).
  rewrite Hdec. reflexivity.
Qed.

(** C2, as the code has it: decoding the bytes [MarshalSia] wrote. For a
    version 0 transaction without an encoder extension, whose fields the
    primitive decoder gives back, [UnmarshalSia] restores the version and
    the six core fields and leaves the receiver's extension as it was: the
    receiver ends equal to the transaction when their extensions agree.
    For any other version the outcome is what the decoder registered for
    the version (the sentinel decoder when there is none) returns on the
    transaction's data. *)
Theorem UnmarshalSia_after_MarshalSia t recv rest payload :
  (Version t = TransactionVersionZero ->
     extension_encoder E t = None /\ core_fields_decode E t) ->
  (Version t <> TransactionVersionZero ->
     transaction_data E t = Ok payload /\ decodes (codec_Bytes E) payload) ->
  (Version t = TransactionVersionZero ->
     UnmarshalSia E recv (fst (MarshalSia E t) ++ rest)
     = Decoded (set_Extension (Extension recv) t) rest
     /\ (Extension recv = Extension t ->
         UnmarshalSia E recv (fst (MarshalSia E t) ++ rest) = Decoded t rest))
  /\ (Version t <> TransactionVersionZero ->
     UnmarshalSia E recv (fst (MarshalSia E t) ++ rest)
     = match DecodeTransactionData (decoder_for E (Version t)) (Version t) payload with
       | (t', None) => Decoded t' rest
       | (t', Some err) => Failed t' err
       end).
Proof.
  intros Hlegacy Hversioned. split; intros Hv.
  - destruct (Hlegacy Hv) as [Henc Hfields].
    pose proof (UnmarshalSia_legacy t recv rest Hv Henc Hfields) as Hdone.
    split; [exact Hdone |].
    intros Hext. rewrite Hdone, Hext. f_equal. apply set_Extension_same.
  - destruct (Hversioned Hv) as [Hdata Hdec].
    apply UnmarshalSia_versioned; assumption.
Qed.

(** *** Versions without a registered decoder *)

Lemma decoder_for_unregistered (v : TransactionVersion) :
  _RegisteredTransactionDecoders E !! v = None ->
  decoder_for E v = unknownTransactionDecoder.
Proof. intros Hreg. unfold decoder_for. rewrite Hreg. reflexivity. Qed.

(** C3, as the code has it: for a non-zero version absent from the table
    of registered decoders, [UnmarshalSia] always fails, with the
    invalid-version error once the data slice after the version byte has
    been read and with the error of that read otherwise; [UnmarshalJSON]
    fails with the invalid-version error on every envelope of that
    version; [IsStandardTransaction] returns the invalid-version error. *)
Theorem unregistered_version_rejected (v : TransactionVersion) :
  v <> TransactionVersionZero ->
  _RegisteredTransactionDecoders E !! v = None ->
  (forall recv r,
     exists t' err,
       UnmarshalSia E recv (v :: r) = Failed t' err
       /\ match Unmarshal (codec_Bytes E) r with
          | Ok _ => err = ErrInvalidTransactionVersion
          | Err e => err = e
          end)
  /\ (forall recv b data,
        json_Unmarshal_jsonTransaction E b = Ok {| jt_Version := v; jt_Data := data |} ->
        snd (UnmarshalJSON E recv b) = Some ErrInvalidTransactionVersion)
  /\ (forall t, Version t = v ->
        IsStandardTransaction E t = Some ErrInvalidTransactionVersion).
Proof.
  intros Hv Hreg. split; [| split].
  - intros recv r. unfold UnmarshalSia.
    cbn [TransactionVersion_UnmarshalSia set_Version Version].
    rewrite (version_eqb_nonzero _ Hv).
    destruct (Unmarshal (codec_Bytes E) r) as [[rawData r2] | e].
    + rewrite (decoder_for_unregistered v Hreg). cbn.
      exists zeroTransaction, ErrInvalidTransactionVersion. split; reflexivity.
    + eexists _, e. split; reflexivity.
  - intros recv b data Hparse. unfold UnmarshalJSON. rewrite Hparse.
    cbn [jt_Version jt_Data]. rewrite (version_eqb_nonzero _ Hv).
    rewrite (decoder_for_unregistered v Hreg). reflexivity.
  - intros t Ht. unfold IsStandardTransaction. subst v.
    rewrite (version_eqb_nonzero _ Hv), Hreg. reflexivity.
Qed.

(** *** Output IDs *)

Lemma output_id_input_shape (spec : Specifier) t (i : Z) :
  concat (output_id_objs E spec t i) = spec ++ output_id_body E t ++ EncUint64 i.
Proof.
  unfold output_id_objs, output_id_body, Marshal_Specifier, Marshal_uint64.
  destruct (Byte.eqb (Version t) TransactionVersionZero).
  - cbn [concat]. rewrite concat_app. cbn [concat]. now rewrite app_nil_r.
  - cbn [concat]. now rewrite app_nil_r.
Qed.

Lemma output_specifiers_differ (a b : list byte) :
  SpecifierCoinOutput ++ a <> SpecifierBlockStakeOutput ++ b.
Proof.
  intros Heq. apply (f_equal (firstn 1)) in Heq.
  cbv in Heq. discriminate Heq.
Qed.

(** C4: the bytes hashed for a coin output ID and for a blockstake output
    ID of the same transaction and index differ (in their specifier), and
    those hashed for the coin output IDs of two different indices differ
    (in the index appended); so the IDs differ unless the hash collides on
    those two inputs. *)
Theorem output_ids_domain_separated t (i j : Z) :
  is_uint64 i -> is_uint64 j ->
  (CoinOutputID_input E t i <> BlockStakeOutputID_input E t i
   /\ (~ collision E (CoinOutputID_input E t i) (BlockStakeOutputID_input E t i) ->
       Transaction_CoinOutputID E t i <> Transaction_BlockStakeOutputID E t i))
  /\ (i <> j ->
      CoinOutputID_input E t i <> CoinOutputID_input E t j
      /\ (~ collision E (CoinOutputID_input E t i) (CoinOutputID_input E t j) ->
          Transaction_CoinOutputID E t i <> Transaction_CoinOutputID E t j)).
Proof.
  intros Hi Hj.
  assert (Hkinds : CoinOutputID_input E t i <> BlockStakeOutputID_input E t i).
  { unfold CoinOutputID_input, BlockStakeOutputID_input.
    rewrite !output_id_input_shape. apply output_specifiers_differ. }
  split.
  - split; [exact Hkinds |].
    intros Hfree Heq. apply Hfree. split; [exact Hkinds | exact Heq].
  - intros Hij.
    assert (Hidx : CoinOutputID_input E t i <> CoinOutputID_input E t j).
    { unfold CoinOutputID_input. rewrite !output_id_input_shape.
      intros Heq. apply app_inv_head in Heq. apply app_inv_head in Heq.
      apply Hij. apply EncUint64_inj; assumption. }
    split; [exact Hidx |].
    intros Hfree Heq. apply Hfree. split; [exact Hidx | exact Heq].
Qed.

(** *** Validation *)

(** C9: when the extension is a validator, [ValidateTransaction] returns
    what the extension's [ValidateTransaction] returns on the context and
    the transaction, and calls that routine only, never the default one;
    otherwise it returns what the default validation returns. *)
Theorem ValidateTransaction_dispatch t (ctx : TransactionValidationContext) :
  (forall validator,
     extension_validator E t = Some validator ->
     ValidateTransaction E t ctx
     = (validator_ValidateTransaction validator ctx t, [call_extension_ValidateTransaction])
     /\ ~ In call_defaultTransactionValidation (snd (ValidateTransaction E t ctx)))
  /\ (extension_validator E t = None ->
      ValidateTransaction E t ctx
      = (defaultTransactionValidation E ctx t, [call_defaultTransactionValidation])).
Proof.
  unfold ValidateTransaction. split.
  - intros validator Hval. rewrite Hval. split; [reflexivity |].
    cbn [snd]. intros [Hcall | []]. discriminate Hcall.
  - intros Hnone. rewrite Hnone. reflexivity.
Qed.

(** *** JSON *)

(** C10: without an encoder extension, whatever the version, [MarshalJSON]
    returns the envelope of the version and the legacy object of the six
    core fields, [coininputs] and [minerfees] always present and the other
    four left out when empty, provided the fields it writes marshal. *)
Theorem MarshalJSON_legacy_fallback t (jci jco jbi jbo jmf jad : JSON) :
  extension_encoder E t = None ->
  json_CoinInputs E (CoinInputs t) = Ok jci ->
  (is_empty (CoinOutputs t) = false -> json_CoinOutputs E (CoinOutputs t) = Ok jco) ->
  (is_empty (BlockStakeInputs t) = false ->
     json_BlockStakeInputs E (BlockStakeInputs t) = Ok jbi) ->
  (is_empty (BlockStakeOutputs t) = false ->
     json_BlockStakeOutputs E (BlockStakeOutputs t) = Ok jbo) ->
  json_MinerFees E (MinerFees t) = Ok jmf ->
  (is_empty (ArbitraryData t) = false -> json_Bytes E (ArbitraryData t) = Ok jad) ->
  MarshalJSON E t
  = Ok (JObject
          [ ("version"%string, JNumber (Z_of_byte (Version t)));
            ("data"%string,
             JObject
               ([("coininputs"%string, jci)]
                ++ omitempty_member "coinoutputs" (CoinOutputs t) jco
                ++ omitempty_member "blockstakeinputs" (BlockStakeInputs t) jbi
                ++ omitempty_member "blockstakeoutputs" (BlockStakeOutputs t) jbo
                ++ [("minerfees"%string, jmf)]
                ++ omitempty_member "arbitrarydata" (ArbitraryData t) jad)) ]).
Proof.
  intros Henc Hci Hco Hbi Hbo Hmf Had.
  unfold MarshalJSON. rewrite Henc.
  unfold json_Marshal_jsonLegacy, jsonLegacy_fields, omitempty_member.
  cbn [json_Marshal_struct jf_key jf_omitempty jf_empty jf_value andb
       jl_CoinInputs jl_CoinOutputs jl_BlockstakeInputs jl_BlockStakeOutputs
       jl_MinerFees jl_ArbitraryData].
  rewrite Hci, Hmf.
  destruct (is_empty (CoinOutputs t)); [| rewrite (Hco eq_refl)];
    (destruct (is_empty (BlockStakeInputs t)); [| rewrite (Hbi eq_refl)]);
    (destruct (is_empty (BlockStakeOutputs t)); [| rewrite (Hbo eq_refl)]);
    (destruct (is_empty (ArbitraryData t)); [| rewrite (Had eq_refl)]);
    reflexivity.
Qed.

End TransactionProperties.

(** ** The properties at the examples *)

Lemma fixture_registered_v1 :
  _RegisteredTransactionDecoders world_registered !! x01 = Some fixture_decoder.
Proof. unfold world_registered. cbn [_RegisteredTransactionDecoders fixtureEnv]. apply lookup_singleton_eq. Qed.

Lemma fixture_unregistered (v : TransactionVersion) :
  _RegisteredTransactionDecoders world_unregistered !! v = None.
Proof. unfold world_unregistered. cbn [_RegisteredTransactionDecoders fixtureEnv]. apply lookup_empty. Qed.

Lemma fixture_fields_decode (registered : gmap TransactionVersion TransactionDecoder) :
  core_fields_decode (fixtureEnv registered) legacy_tx.
Proof. repeat split; intros rest; reflexivity. Qed.

Lemma ID_hash_input_by_version_witness :
  ID world_unregistered legacy_tx
  = HashBytes world_unregistered
      (Marshal (codec_CoinInputs world_unregistered) (CoinInputs legacy_tx)
       ++ Marshal (codec_CoinOutputs world_unregistered) (CoinOutputs legacy_tx)
       ++ Marshal (codec_BlockStakeInputs world_unregistered) (BlockStakeInputs legacy_tx)
       ++ Marshal (codec_BlockStakeOutputs world_unregistered) (BlockStakeOutputs legacy_tx)
       ++ Marshal (codec_MinerFees world_unregistered) (MinerFees legacy_tx)
       ++ Marshal (codec_Bytes world_unregistered) (ArbitraryData legacy_tx))
  /\ ID world_unregistered v1_tx
     = HashBytes world_unregistered
         (Version v1_tx
          :: Marshal (codec_Bytes world_unregistered)
               (Marshal (codec_CoinInputs world_unregistered) (CoinInputs v1_tx)
                ++ Marshal (codec_CoinOutputs world_unregistered) (CoinOutputs v1_tx)
                ++ Marshal (codec_BlockStakeInputs world_unregistered) (BlockStakeInputs v1_tx)
                ++ Marshal (codec_BlockStakeOutputs world_unregistered)
                     (BlockStakeOutputs v1_tx)
                ++ Marshal (codec_MinerFees world_unregistered) (MinerFees v1_tx)
                ++ Marshal (codec_Bytes world_unregistered) (ArbitraryData v1_tx))).
Proof.
  split.
  - destruct (ID_hash_input_by_version world_unregistered legacy_tx) as [Hlegacy _].
    destruct (Hlegacy eq_refl) as [Hid _]. exact Hid.
  - destruct (ID_hash_input_by_version world_unregistered v1_tx) as [_ Hversioned].
    assert (Hv : Version v1_tx <> TransactionVersionZero) by (intros Hv; discriminate Hv).
    destruct (Hversioned Hv) as [Hplain _].
    destruct (Hplain eq_refl) as [_ Hid]. exact Hid.
Defined.

(** C1 fails as stated. The version 1 transaction [failing_tx] carries an
    encoder extension whose [EncodeTransactionData] fails: [MarshalSia]
    returns that error and writes nothing, and [ID], which does not look
    at the error, is the hash of no bytes, not of an encoding that starts
    with the version byte; it is also the ID of the same transaction
    without its arbitrary data. *)
Lemma failing_encoder_ID_counterexample :
  Version failing_tx = x01
  /\ MarshalSia world_unregistered failing_tx = ([], Some (ErrExternal "cannot encode"))
  /\ ID world_unregistered failing_tx = HashBytes world_unregistered []
  /\ ID world_unregistered (set_ArbitraryData [] failing_tx) = ID world_unregistered failing_tx
  /\ set_ArbitraryData [] failing_tx <> failing_tx.
Proof.
  split; [reflexivity |].
  split; [reflexivity |].
  split; [reflexivity |].
  split; [reflexivity |].
  intros Heq. apply (f_equal ArbitraryData) in Heq. discriminate Heq.
Qed.

Lemma UnmarshalSia_after_MarshalSia_witness :
  (UnmarshalSia world_unregistered zeroTransaction
     (fst (MarshalSia world_unregistered legacy_tx) ++ [])
   = Decoded legacy_tx [])
  /\ (UnmarshalSia world_registered zeroTransaction
        (fst (MarshalSia world_registered v1_tx) ++ [x2a])
      = Decoded (set_Version x01 zeroTransaction) [x2a]).
Proof.
  split.
  - destruct (UnmarshalSia_after_MarshalSia world_unregistered legacy_tx zeroTransaction [] [])
      as [Hlegacy _].
    + intros _. split; [reflexivity | apply fixture_fields_decode].
    + intros Hv. exfalso. apply Hv. reflexivity.
    + destruct (Hlegacy eq_refl) as [_ Hsame]. apply Hsame. reflexivity.
  - destruct (UnmarshalSia_after_MarshalSia world_registered v1_tx zeroTransaction [x2a]
                (concat (core_fields world_registered v1_tx)))
      as [_ Hversioned].
    + intros Hv. discriminate Hv.
    + intros _. split; [reflexivity | intros rest; reflexivity].
    + rewrite Hversioned by (intros Hv; discriminate Hv).
      vm_compute. reflexivity.
Defined.

(** C2 fails as stated. With [fixture_decoder] registered for version 1,
    the version 1 transaction [v1_tx] is encoded without error and its
    bytes decode, through the registered decoder, to an empty version 1
    transaction; and the version 0 transaction [encoder_tx], which an
    encoder extension writes, is encoded without error and its bytes do not
    decode at all. *)
Lemma binary_roundtrip_counterexample :
  (Version v1_tx = x01
   /\ _RegisteredTransactionDecoders world_registered !! x01 = Some fixture_decoder
   /\ snd (MarshalSia world_registered v1_tx) = None
   /\ UnmarshalSia world_registered zeroTransaction (fst (MarshalSia world_registered v1_tx))
      = Decoded (set_Version x01 zeroTransaction) []
   /\ set_Version x01 zeroTransaction <> v1_tx)
  /\ (Version encoder_tx = TransactionVersionZero
      /\ snd (MarshalSia world_registered encoder_tx) = None
      /\ UnmarshalSia world_registered zeroTransaction
           (fst (MarshalSia world_registered encoder_tx))
         = Failed zeroTransaction (ErrExternal "unexpected EOF")).
Proof.
  split.
  - split; [reflexivity |].
    split; [apply fixture_registered_v1 |].
    split; [reflexivity |].
    split; [vm_compute; reflexivity |].
    intros Heq. apply (f_equal ArbitraryData) in Heq. discriminate Heq.
  - split; [reflexivity |].
    split; [reflexivity |].
    vm_compute. reflexivity.
Qed.

Lemma unregistered_version_rejected_witness :
  (forall recv r,
     exists t' err,
       UnmarshalSia world_unregistered recv (x05 :: r) = Failed t' err
       /\ match Unmarshal (codec_Bytes world_unregistered) r with
          | Ok _ => err = ErrInvalidTransactionVersion
          | Err e => err = e
          end)
  /\ (forall recv b data,
        json_Unmarshal_jsonTransaction world_unregistered b
        = Ok {| jt_Version := x05; jt_Data := data |} ->
        snd (UnmarshalJSON world_unregistered recv b) = Some ErrInvalidTransactionVersion)
  /\ (forall t, Version t = x05 ->
        IsStandardTransaction world_unregistered t = Some ErrInvalidTransactionVersion).
Proof.
  apply (unregistered_version_rejected world_unregistered x05).
  - intros Hv. discriminate Hv.
  - apply fixture_unregistered.
Defined.

(** C3 fails as stated. With no decoder registered, [UnmarshalSia] on the
    single byte 5, a non-zero unregistered version with nothing after it,
    fails with the error of reading the data slice, which is not the
    invalid-version error. *)
Lemma unknown_version_error_counterexample :
  _RegisteredTransactionDecoders world_unregistered !! x05 = None
  /\ UnmarshalSia world_unregistered zeroTransaction [x05]
     = Failed (set_Version x05 zeroTransaction) (ErrExternal "unexpected EOF")
  /\ ErrExternal "unexpected EOF" <> ErrInvalidTransactionVersion.
Proof.
  split; [apply fixture_unregistered |].
  split; [vm_compute; reflexivity |].
  intros Heq. discriminate Heq.
Qed.

Lemma fixture_hash_collision_free (x y : list byte) : ~ collision world_unregistered x y.
Proof. intros [Hne Heq]. apply Hne. exact Heq. Qed.

Lemma output_ids_domain_separated_witness :
  Transaction_CoinOutputID world_unregistered legacy_tx 0
  <> Transaction_BlockStakeOutputID world_unregistered legacy_tx 0
  /\ Transaction_CoinOutputID world_unregistered legacy_tx 0
     <> Transaction_CoinOutputID world_unregistered legacy_tx 1.
Proof.
  assert (H0 : is_uint64 0) by (unfold is_uint64; lia).
  assert (H1 : is_uint64 1) by (unfold is_uint64; lia).
  destruct (output_ids_domain_separated world_unregistered legacy_tx 0 1 H0 H1)
    as [[_ Hkinds] Hindices].
  split.
  - apply Hkinds. apply fixture_hash_collision_free.
  - destruct (Hindices ltac:(lia)) as [_ Hids].
    apply Hids. apply fixture_hash_collision_free.
Defined.

Lemma ValidateTransaction_dispatch_witness :
  (ValidateTransaction world_unregistered validated_tx fixture_ctx
   = (Some (ErrExternal "rejected by the extension"), [call_extension_ValidateTransaction])
   /\ ~ In call_defaultTransactionValidation
          (snd (ValidateTransaction world_unregistered validated_tx fixture_ctx)))
  /\ ValidateTransaction world_unregistered legacy_tx fixture_ctx
     = (Some (ErrExternal "rejected by default validation"),
        [call_defaultTransactionValidation]).
Proof.
  split.
  - destruct (ValidateTransaction_dispatch world_unregistered validated_tx fixture_ctx)
      as [Hext _].
    apply (Hext {| validator_ValidateTransaction :=
                     fun _ _ => Some (ErrExternal "rejected by the extension") |}).
    reflexivity.
  - destruct (ValidateTransaction_dispatch world_unregistered legacy_tx fixture_ctx)
      as [_ Hdefault].
    apply Hdefault. reflexivity.
Defined.

Lemma MarshalJSON_legacy_fallback_witness :
  MarshalJSON world_unregistered v1_tx
  = Ok (JObject
          [ ("version"%string, JNumber 1);
            ("data"%string,
             JObject
               [ ("coininputs"%string, JArray []);
                 ("coinoutputs"%string,
                  JArray [JObject [("value"%string, JString [x0a]);
                                   ("unlockhash"%string, JString [x01; x02])]]);
                 ("minerfees"%string, JArray [JString [x02]]);
                 ("arbitrarydata"%string, JString [x68; x69]) ]) ]).
Proof.
  apply (MarshalJSON_legacy_fallback world_unregistered v1_tx
           (JArray [])
           (JArray [JObject [("value"%string, JString [x0a]);
                             ("unlockhash"%string, JString [x01; x02])]])
           (JArray []) (JArray [])
           (JArray [JString [x02]])
           (JString [x68; x69])).
  - reflexivity.
  - reflexivity.
  - intros _. reflexivity.
  - intros Hne. discriminate Hne.
  - intros Hne. discriminate Hne.
  - reflexivity.
  - intros _. reflexivity.
Defined.

(** * Further properties *)

(** ** Transaction short IDs *)

Lemma shortID_unpack (txsid : Z) :
  is_uint64 txsid ->
  ShortID_BlockHeight txsid = txsid / 2 ^ 14
  /\ ShortID_TransactionSequenceIndex txsid = txsid mod 2 ^ 14.
Proof.
  unfold is_uint64. intros Hid.
  unfold ShortID_BlockHeight, ShortID_TransactionSequenceIndex, uint16,
    txShortIDBlockHeightShift.
  change txSeqIndexMaxMask with (Z.ones 14).
  rewrite Z.shiftr_div_pow2, Z.land_ones by lia.
  split; [reflexivity |].
  pose proof (Z.mod_pos_bound txsid (2 ^ 14) ltac:(lia)).
  apply Z.mod_small. lia.
Qed.

(** Every 64-bit value is a short ID: its height is below 2^50, its
    sequence index below 2^14, and the constructor builds it back from
    them. *)
Theorem ShortID_unpack_then_pack (txsid : Z) :
  is_uint64 txsid ->
  0 <= ShortID_BlockHeight txsid < 2 ^ 50
  /\ 0 <= ShortID_TransactionSequenceIndex txsid < 2 ^ 14
  /\ NewTransactionShortID (ShortID_BlockHeight txsid)
       (ShortID_TransactionSequenceIndex txsid) = Return txsid.
Proof.
  intros Hid. destruct (shortID_unpack txsid Hid) as [Hh Hs].
  rewrite Hh, Hs. unfold is_uint64 in Hid.
  assert (Hq : 0 <= txsid / 2 ^ 14 < 2 ^ 50).
  { split; [apply Z.div_pos; lia | apply Z.div_lt_upper_bound; lia]. }
  pose proof (Z.mod_pos_bound txsid (2 ^ 14) ltac:(lia)) as Hr.
  split; [exact Hq | split; [exact Hr |]].
  rewrite NewTransactionShortID_in_range by assumption.
  rewrite shortID_value by lia.
  f_equal. pose proof (Z.div_mod txsid (2 ^ 14) ltac:(lia)). lia.
Qed.

Lemma ShortID_unpack_then_pack_witness :
  0 <= ShortID_BlockHeight (2 ^ 64 - 1) < 2 ^ 50
  /\ 0 <= ShortID_TransactionSequenceIndex (2 ^ 64 - 1) < 2 ^ 14
  /\ NewTransactionShortID (ShortID_BlockHeight (2 ^ 64 - 1))
       (ShortID_TransactionSequenceIndex (2 ^ 64 - 1)) = Return (2 ^ 64 - 1).
Proof.
  apply (ShortID_unpack_then_pack (2 ^ 64 - 1)). unfold is_uint64. lia.
Defined.

(** Two in-range pairs with the same short ID are the same pair. *)
Theorem NewTransactionShortID_injective (h1 s1 h2 s2 : Z) :
  0 <= h1 < 2 ^ 50 -> 0 <= s1 < 2 ^ 14 ->
  0 <= h2 < 2 ^ 50 -> 0 <= s2 < 2 ^ 14 ->
  NewTransactionShortID h1 s1 = NewTransactionShortID h2 s2 ->
  h1 = h2 /\ s1 = s2.
Proof.
  intros Hh1 Hs1 Hh2 Hs2 Heq.
  rewrite !NewTransactionShortID_in_range in Heq by assumption.
  rewrite !shortID_value in Heq by lia.
  injection Heq as Heq. lia.
Qed.

Lemma NewTransactionShortID_injective_witness :
  NewTransactionShortID 12345 42 = NewTransactionShortID 12345 42
  /\ (12345 = 12345 /\ 42 = 42).
Proof.
  split; [reflexivity |].
  apply (NewTransactionShortID_injective 12345 42 12345 42); try lia. reflexivity.
Defined.

Lemma Z_of_byte_range (b : byte) : 0 <= Z_of_byte b < 256.
Proof.
  unfold Z_of_byte. pose proof (Byte.to_N_bounded b). lia.
Qed.

Lemma byte_of_Z_of_byte (b : byte) (v : Z) : byte_of_Z (Z_of_byte b + 256 * v) = b.
Proof.
  unfold byte_of_Z.
  pose proof (Z_of_byte_range b) as Hb.
  replace ((Z_of_byte b + 256 * v) mod 256) with (Z_of_byte b).
  - unfold Z_of_byte. rewrite N2Z.id, Byte.of_to_N. reflexivity.
  - replace (Z_of_byte b + 256 * v) with (Z_of_byte b + v * 256) by lia.
    rewrite Z.mod_add by lia.
    symmetry. apply Z.mod_small. exact Hb.
Qed.

Lemma le_value_nonneg (bs : list byte) : 0 <= le_value bs.
Proof.
  induction bs as [| b bs IH]; simpl; [lia |].
  pose proof (Z_of_byte_range b). lia.
Qed.

Lemma le_bytes_le_value (bs : list byte) : le_bytes (length bs) (le_value bs) = bs.
Proof.
  induction bs as [| b bs IH]; [reflexivity |].
  cbn [length le_bytes le_value]. rewrite byte_of_Z_of_byte. f_equal.
  replace ((Z_of_byte b + 256 * le_value bs) / 256) with (le_value bs); [exact IH |].
  pose proof (Z_of_byte_range b) as Hb.
  replace (Z_of_byte b + 256 * le_value bs) with (Z_of_byte b + le_value bs * 256) by lia.
  rewrite Z.div_add by lia.
  rewrite (Z.div_small (Z_of_byte b)) by exact Hb. lia.
Qed.

Lemma le_value_zeros (bs : list byte) (k : nat) :
  le_value (bs ++ repeat x00 k) = le_value bs.
Proof.
  induction bs as [| b bs IH]; simpl.
  - induction k as [| k IHk]; simpl; [reflexivity |]. rewrite IHk. reflexivity.
  - rewrite IH. reflexivity.
Qed.

Lemma EncUint64_length (z : Z) : length (EncUint64 z) = 8%nat.
Proof. apply length_le_bytes. Qed.

Lemma Reader_Read_full (bs rest : list byte) :
  bs <> [] ->
  Reader_Read (length bs) (bs ++ rest) = (bs, None, rest).
Proof.
  intros Hne. unfold Reader_Read.
  destruct (bs ++ rest) as [| x l] eqn:El.
  - apply app_eq_nil in El. destruct El as [El _]. contradiction.
  - rewrite <- El. rewrite firstn_app, Nat.sub_diag, firstn_all, firstn_O, app_nil_r.
    rewrite skipn_app, Nat.sub_diag, skipn_all. reflexivity.
Qed.

(** The binary encoding of a short ID is eight bytes, and decoding them,
    whatever follows them and whatever the receiver held, gives the ID
    back and leaves what followed. *)
Theorem TransactionShortID_binary_roundtrip (txsid recv : Z) (rest : list byte) :
  is_uint64 txsid ->
  length (TransactionShortID_MarshalSia txsid) = 8%nat
  /\ TransactionShortID_UnmarshalSia recv (TransactionShortID_MarshalSia txsid ++ rest)
     = (txsid, None, rest).
Proof.
  intros Hid. unfold TransactionShortID_MarshalSia.
  split; [apply EncUint64_length |].
  unfold TransactionShortID_UnmarshalSia.
  pose proof (EncUint64_length (uint64 txsid)) as Hlen.
  assert (Hne : EncUint64 (uint64 txsid) <> []).
  { intros Hnil. rewrite Hnil in Hlen. discriminate Hlen. }
  rewrite <- Hlen at 1. rewrite (Reader_Read_full _ rest Hne).
  rewrite Hlen. cbn [Nat.sub repeat]. rewrite app_nil_r.
  rewrite DecUint64_EncUint64. unfold uint64, is_uint64 in *.
  rewrite !(Z.mod_small txsid (2 ^ 64)) by lia. reflexivity.
Qed.

Lemma TransactionShortID_binary_roundtrip_witness :
  length (TransactionShortID_MarshalSia 202260522) = 8%nat
  /\ TransactionShortID_UnmarshalSia 0 (TransactionShortID_MarshalSia 202260522 ++ [x2a])
     = (202260522, None, [x2a]).
Proof.
  apply (TransactionShortID_binary_roundtrip 202260522 0 [x2a]). unfold is_uint64. lia.
Defined.

(** Decoding a short ID from a reader that holds fewer than eight bytes:
    an empty reader fails with [io.EOF] and leaves the receiver as it
    was; one to seven bytes are accepted, the missing high bytes read as
    zero, and nothing is left in the reader. *)
Theorem TransactionShortID_UnmarshalSia_short_read (recv : Z) (r : list byte) :
  (length r < 8)%nat ->
  TransactionShortID_UnmarshalSia recv r =
    match r with
    | [] => (recv, Some EOF, [])
    | _ :: _ => (le_value r, None, [])
    end.
Proof.
  intros Hlen. unfold TransactionShortID_UnmarshalSia, Reader_Read.
  destruct r as [| x l]; [reflexivity |].
  rewrite firstn_all2, skipn_all2 by lia.
  unfold DecUint64.
  rewrite firstn_all2 by (rewrite length_app, repeat_length; lia).
  rewrite le_value_zeros. reflexivity.
Qed.

Lemma TransactionShortID_UnmarshalSia_short_read_witness :
  TransactionShortID_UnmarshalSia 7 [x05; x01] = (261, None, []).
Proof.
  apply (TransactionShortID_UnmarshalSia_short_read 7 [x05; x01]). simpl. lia.
Defined.

Lemma EncUint64_first_byte (z : Z) :
  exists b tail, EncUint64 z = b :: tail /\ Z_of_byte b = z mod 256.
Proof.
  unfold EncUint64. cbn [le_bytes]. eexists _, _. split; [reflexivity |].
  apply Z_of_byte_of_Z.
Qed.

(** The byte-wise order of two encoded short IDs is settled by the low
    byte of the sequence index, before the height is looked at: an ID
    whose sequence index has the smaller low byte is encoded to the
    byte-wise smaller string, whatever the two heights. *)
Theorem TransactionShortID_bytewise_order (h1 s1 h2 s2 : Z) :
  0 <= h1 < 2 ^ 50 -> 0 <= s1 < 2 ^ 14 ->
  0 <= h2 < 2 ^ 50 -> 0 <= s2 < 2 ^ 14 ->
  s1 mod 256 < s2 mod 256 ->
  exists id1 id2,
    NewTransactionShortID h1 s1 = Return id1
    /\ NewTransactionShortID h2 s2 = Return id2
    /\ bytes_before (TransactionShortID_MarshalSia id1) (TransactionShortID_MarshalSia id2)
       = true.
Proof.
  intros Hh1 Hs1 Hh2 Hs2 Hlow.
  exists (Z.lor (Z.shiftl h1 14) s1), (Z.lor (Z.shiftl h2 14) s2).
  rewrite !NewTransactionShortID_in_range by assumption.
  split; [reflexivity | split; [reflexivity |]].
  rewrite !shortID_value by lia.
  unfold TransactionShortID_MarshalSia.
  destruct (EncUint64_first_byte (uint64 (h1 * 2 ^ 14 + s1))) as (b1 & t1 & -> & Hb1).
  destruct (EncUint64_first_byte (uint64 (h2 * 2 ^ 14 + s2))) as (b2 & t2 & -> & Hb2).
  cbn [bytes_before]. rewrite Hb1, Hb2. unfold uint64.
  rewrite (Z.mod_small (h1 * 2 ^ 14 + s1) (2 ^ 64)) by lia.
  rewrite (Z.mod_small (h2 * 2 ^ 14 + s2) (2 ^ 64)) by lia.
  assert (Hm : forall h s, (h * 2 ^ 14 + s) mod 256 = s mod 256).
  { intros h s. replace (h * 2 ^ 14 + s) with (s + (h * 64) * 256) by lia.
    apply Z.mod_add. lia. }
  rewrite !Hm.
  destruct (Z.ltb_spec (s1 mod 256) (s2 mod 256)); [reflexivity | lia].
Qed.

Lemma TransactionShortID_bytewise_order_witness :
  exists id1 id2,
    NewTransactionShortID 2 0 = Return id1
    /\ NewTransactionShortID 1 1 = Return id2
    /\ bytes_before (TransactionShortID_MarshalSia id1) (TransactionShortID_MarshalSia id2)
       = true.
Proof.
  apply (TransactionShortID_bytewise_order 2 0 1 1); try lia. reflexivity.
Defined.

(** ** Specifiers *)

Lemma range_loop_shift (s : list byte) (k idx i i' : nat) :
  s <> [] ->
  range_loop s (k + idx) i = (k + range_loop s idx i')%nat.
Proof.
  revert idx i i'. induction s as [| b s IH]; intros idx i i' Hne; [contradiction |].
  cbn [range_loop]. destruct (Byte.eqb b x00); [reflexivity |].
  destruct s as [| c s]; [reflexivity |].
  rewrite <- (IH (S idx) (k + idx)%nat idx) by discriminate.
  f_equal. lia.
Qed.

Lemma range_loop_app (str s : list byte) (idx i : nat) :
  ~ In x00 str -> s <> [] ->
  range_loop (str ++ s) idx i = (length str + range_loop s idx i)%nat.
Proof.
  revert idx i. induction str as [| b str IH]; intros idx i Hnz Hne; [reflexivity |].
  cbn [app range_loop length]. destruct (Byte.eqb b x00) eqn:Eb.
  - apply Byte.byte_dec_bl in Eb. exfalso. apply Hnz. left. exact Eb.
  - rewrite IH by (try assumption; intros Hin; apply Hnz; right; exact Hin).
    pose proof (range_loop_shift s 1 idx idx i Hne) as Hshift.
    simpl in Hshift. rewrite Hshift. lia.
Qed.

Lemma Specifier_String_app (str s : list byte) :
  ~ In x00 str -> s <> [] ->
  Specifier_String (str ++ s) = str ++ Specifier_String s.
Proof.
  intros Hnz Hne. unfold Specifier_String.
  rewrite range_loop_app by assumption.
  rewrite firstn_app_2. reflexivity.
Qed.

Lemma Specifier_String_zeros (k : nat) : Specifier_String (repeat x00 k) = [].
Proof. destruct k; reflexivity. Qed.

Lemma skipn_zeros (n k : nat) : skipn n (repeat x00 k) = repeat x00 (k - n).
Proof.
  revert k. induction n as [| n IH]; intros k.
  - now rewrite Nat.sub_0_r.
  - destruct k as [| k]; [reflexivity | apply IH].
Qed.

Lemma length_LoadString_result (s : Specifier) (str : list byte) :
  wf_Specifier s -> (length str <= SpecifierLen)%nat ->
  length (str ++ skipn (length str) s) = SpecifierLen.
Proof.
  unfold wf_Specifier. intros Hwf Hlen.
  rewrite length_app, length_skipn. lia.
Qed.

(** [LoadString] refuses exactly the strings longer than 16 bytes. A
    string it accepts overwrites the front of the specifier, which stays
    16 bytes long; the bytes behind the string are the receiver's old
    ones, not zeros. *)
Theorem Specifier_LoadString_bounds (s : Specifier) (str : list byte) :
  wf_Specifier s ->
  ((exists e, Specifier_LoadString s str = Err e) <-> (16 < length str)%nat)
  /\ ((length str <= 16)%nat ->
      exists s',
        Specifier_LoadString s str = Ok s'
        /\ wf_Specifier s'
        /\ firstn (length str) s' = str
        /\ skipn (length str) s' = skipn (length str) s).
Proof.
  intros Hwf. unfold Specifier_LoadString, SpecifierLen.
  destruct (Nat.ltb_spec 16 (length str)) as [Hlong | Hfits].
  - split.
    + split; [intros _; exact Hlong | intros _; eauto].
    + intros Hle. lia.
  - split.
    + split; [intros [e He]; discriminate He | intros Hlt; lia].
    + intros _. eexists. split; [reflexivity |].
      split; [apply length_LoadString_result; assumption |].
      split.
      * rewrite firstn_app, Nat.sub_diag, firstn_all, firstn_O. apply app_nil_r.
      * rewrite skipn_app, Nat.sub_diag, skipn_all. reflexivity.
Qed.

Lemma Specifier_LoadString_bounds_witness :
  ((exists e, Specifier_LoadString SpecifierCoinOutput (list_byte_of_string "miner fee") = Err e)
   <-> (16 < length (list_byte_of_string "miner fee"))%nat)
  /\ ((length (list_byte_of_string "miner fee") <= 16)%nat ->
      exists s',
        Specifier_LoadString SpecifierCoinOutput (list_byte_of_string "miner fee") = Ok s'
        /\ wf_Specifier s'
        /\ firstn (length (list_byte_of_string "miner fee")) s' = list_byte_of_string "miner fee"
        /\ skipn (length (list_byte_of_string "miner fee")) s'
           = skipn (length (list_byte_of_string "miner fee")) SpecifierCoinOutput).
Proof.
  apply (Specifier_LoadString_bounds SpecifierCoinOutput (list_byte_of_string "miner fee")).
  reflexivity.
Defined.

(** Loading a string of fewer than 16 bytes, none of them zero, into a
    zero specifier and printing it gives the string back. *)
Theorem Specifier_LoadString_String_roundtrip (str : list byte) :
  (length str < 16)%nat -> ~ In x00 str ->
  exists s',
    Specifier_LoadString (repeat x00 SpecifierLen) str = Ok s'
    /\ Specifier_String s' = str.
Proof.
  intros Hlen Hnz. unfold Specifier_LoadString, SpecifierLen.
  destruct (Nat.ltb_spec 16 (length str)) as [Hlong | _]; [lia |].
  eexists. split; [reflexivity |].
  rewrite skipn_zeros.
  rewrite Specifier_String_app.
  - rewrite Specifier_String_zeros. apply app_nil_r.
  - exact Hnz.
  - destruct (16 - length str)%nat eqn:Ek; [lia | discriminate].
Qed.

Lemma Specifier_LoadString_String_roundtrip_witness :
  exists s',
    Specifier_LoadString (repeat x00 SpecifierLen) (list_byte_of_string "coin output") = Ok s'
    /\ Specifier_String s' = list_byte_of_string "coin output".
Proof.
  apply (Specifier_LoadString_String_roundtrip (list_byte_of_string "coin output")).
  - simpl. lia.
  - intros Hin. simpl in Hin. intuition discriminate.
Defined.

(** [LoadString] does not clear the receiver: after loading a string of
    fewer than 16 non-zero bytes into any specifier, [String] returns the
    string followed by what [String] makes of the receiver's old bytes
    behind it. *)
Theorem Specifier_LoadString_keeps_old_tail (s : Specifier) (str : list byte) :
  wf_Specifier s -> (length str < 16)%nat -> ~ In x00 str ->
  exists s',
    Specifier_LoadString s str = Ok s'
    /\ Specifier_String s' = str ++ Specifier_String (skipn (length str) s).
Proof.
  unfold wf_Specifier, SpecifierLen. intros Hwf Hlen Hnz.
  unfold Specifier_LoadString, SpecifierLen.
  destruct (Nat.ltb_spec 16 (length str)) as [Hlong | _]; [lia |].
  eexists. split; [reflexivity |].
  apply Specifier_String_app; [exact Hnz |].
  intros Hnil. apply (f_equal (@length byte)) in Hnil.
  rewrite length_skipn in Hnil. simpl in Hnil. lia.
Qed.

Lemma Specifier_LoadString_keeps_old_tail_witness :
  exists s',
    Specifier_LoadString SpecifierCoinOutput (list_byte_of_string "ab") = Ok s'
    /\ Specifier_String s'
       = list_byte_of_string "ab"
         ++ Specifier_String (skipn (length (list_byte_of_string "ab")) SpecifierCoinOutput).
Proof.
  apply (Specifier_LoadString_keeps_old_tail SpecifierCoinOutput (list_byte_of_string "ab")).
  - reflexivity.
  - simpl. lia.
  - intros Hin. simpl in Hin. intuition discriminate.
Defined.

Lemma before_first_zero_split (s : list byte) :
  In x00 s -> exists tail, s = before_first_zero s ++ x00 :: tail.
Proof.
  induction s as [| b s IH]; intros Hin; [destruct Hin |].
  simpl. destruct (Byte.eqb b x00) eqn:Eb.
  - apply Byte.byte_dec_bl in Eb. subst b. exists s. reflexivity.
  - apply Byte.eqb_false in Eb. destruct Hin as [Hb | Hin]; [congruence |].
    destruct (IH Hin) as [tail Htail]. exists tail. simpl. f_equal. exact Htail.
Qed.

Lemma before_first_zero_nonzero (s : list byte) : ~ In x00 (before_first_zero s).
Proof.
  induction s as [| b s IH]; simpl; [intros [] |].
  destruct (Byte.eqb b x00) eqn:Eb; [intros [] |].
  apply Byte.eqb_false in Eb. intros [Hb | Hin]; [congruence | exact (IH Hin)].
Qed.

(** What [String] returns for a well-formed specifier is a proper prefix
    of its bytes, holds no zero byte, and so is at most 15 bytes long. *)
Theorem Specifier_String_proper_prefix (s : Specifier) :
  wf_Specifier s ->
  ~ In x00 (Specifier_String s)
  /\ (length (Specifier_String s) <= 15)%nat
  /\ exists tail, tail <> [] /\ s = Specifier_String s ++ tail.
Proof.
  unfold wf_Specifier, SpecifierLen. intros Hwf.
  assert (Hprefix : ~ In x00 (Specifier_String s)
                    /\ exists tail, tail <> [] /\ s = Specifier_String s ++ tail).
  { destruct (Specifier_String_cases s) as [Hzero Hfull].
    destruct (in_dec Byte.byte_eq_dec x00 s) as [Hin | Hnin].
    - rewrite (Hzero Hin). split; [apply before_first_zero_nonzero |].
      destruct (before_first_zero_split s Hin) as [tail Htail].
      exists (x00 :: tail). split; [discriminate | exact Htail].
    - rewrite (Hfull Hnin).
      assert (Hne : s <> []) by (intros ->; discriminate Hwf).
      split.
      + intros Hin. apply Hnin.
        rewrite (app_removelast_last x00 Hne). apply in_or_app. left. exact Hin.
      + exists [List.last s x00]. split; [discriminate |].
        apply app_removelast_last. exact Hne. }
  destruct Hprefix as [Hnz (tail & Hne & Hs)].
  split; [exact Hnz | split; [| eauto]].
  apply (f_equal (@length byte)) in Hs. rewrite length_app in Hs.
  destruct tail; [contradiction | simpl in Hs; lia].
Qed.

Lemma Specifier_String_proper_prefix_witness :
  ~ In x00 (Specifier_String full_specifier)
  /\ (length (Specifier_String full_specifier) <= 15)%nat
  /\ exists tail, tail <> [] /\ full_specifier = Specifier_String full_specifier ++ tail.
Proof.
  apply (Specifier_String_proper_prefix full_specifier). reflexivity.
Defined.

(** The six specifiers of the package are 16 bytes long, print as their
    names, and are pairwise different. *)
Theorem package_specifiers_distinct :
  Forall wf_Specifier
    [SpecifierMinerPayout; SpecifierCoinInput; SpecifierCoinOutput;
     SpecifierBlockStakeInput; SpecifierBlockStakeOutput; SpecifierMinerFee]
  /\ map Specifier_String
       [SpecifierMinerPayout; SpecifierCoinInput; SpecifierCoinOutput;
        SpecifierBlockStakeInput; SpecifierBlockStakeOutput; SpecifierMinerFee]
     = map list_byte_of_string
         ["miner payout"; "coin input"; "coin output";
          "blstake input"; "blstake output"; "miner fee"]%string
  /\ NoDup
       [SpecifierMinerPayout; SpecifierCoinInput; SpecifierCoinOutput;
        SpecifierBlockStakeInput; SpecifierBlockStakeOutput; SpecifierMinerFee].
Proof.
  split; [| split].
  - repeat constructor.
  - reflexivity.
  - apply (bool_decide_unpack _). vm_compute. exact I.
Qed.

(** ** Transactions *)

Section MoreTransactionProperties.
Context {T : Types}.
Variable E : @Env T.
Implicit Types t recv : @Transaction T.

(** *** Binary encoding *)

(** [MarshalSia] fails exactly when the extension is an encoder whose
    [EncodeTransactionData] fails, with that error and nothing written;
    whenever it succeeds, the first byte written is the version. *)
Theorem MarshalSia_error_behaviour t :
  (forall e,
     snd (MarshalSia E t) = Some e
     <-> exists encoder,
           extension_encoder E t = Some encoder
           /\ EncodeTransactionData encoder t = Err e)
  /\ (forall e, snd (MarshalSia E t) = Some e -> fst (MarshalSia E t) = [])
  /\ (snd (MarshalSia E t) = None ->
      exists tail, fst (MarshalSia E t) = Version t :: tail).
Proof.
  unfold MarshalSia.
  destruct (extension_encoder E t) as [encoder |].
  - destruct (EncodeTransactionData encoder t) as [rawData | err] eqn:Eenc; cbn [fst snd].
    + split; [| split].
      * intros e. split; [intros He; discriminate He |].
        intros (encoder' & Hsame & Herr). injection Hsame as <-. congruence.
      * intros e He. discriminate He.
      * intros _. eexists. reflexivity.
    + split; [| split].
      * intros e. split.
        -- intros He. injection He as <-. exists encoder. split; [reflexivity | exact Eenc].
        -- intros (encoder' & Hsame & Herr). injection Hsame as <-. congruence.
      * intros e _. reflexivity.
      * intros He. discriminate He.
  - destruct (Byte.eqb (Version t) TransactionVersionZero); cbn [fst snd].
    + split; [| split].
      * intros e. split; [intros He; discriminate He | intros (encoder & Hnone & _); discriminate Hnone].
      * intros e He. discriminate He.
      * intros _. eexists. reflexivity.
    + split; [| split].
      * intros e. split; [intros He; discriminate He | intros (encoder & Hnone & _); discriminate Hnone].
      * intros e He. discriminate He.
      * intros _. eexists. reflexivity.
Qed.

Lemma decode_into_Decoded {A : Type} (c : Codec A) (set : A -> Transaction -> Transaction)
  (o : outcome) t' r' :
  decode_into c set o = Decoded t' r' ->
  exists t0 r0 a,
    o = Decoded t0 r0 /\ Unmarshal c r0 = Ok (a, r') /\ t' = set a t0.
Proof.
  unfold decode_into. destruct o as [t0 r0 | t0 err]; [| intros H; discriminate H].
  destruct (Unmarshal c r0) as [[a r1] | err] eqn:Eu; [| intros H; discriminate H].
  intros H. injection H as <- <-. exists t0, r0, a. auto.
Qed.

(** Byte-exactness of the legacy format: when the decoders of the six
    core fields accept one encoding only, and the receiver carries no
    encoder extension, the bytes [UnmarshalSia] consumed from an input
    that starts with the version byte 0 are exactly the bytes [MarshalSia]
    writes for the transaction decoded. *)
Theorem MarshalSia_after_UnmarshalSia recv (r : list byte) t (rest : list byte) :
  core_codecs_canonical E ->
  extension_encoder E recv = None ->
  UnmarshalSia E recv (x00 :: r) = Decoded t rest ->
  MarshalSia E t = (x00 :: concat (core_fields E t), None)
  /\ x00 :: r = fst (MarshalSia E t) ++ rest.
Proof.
  intros (Cci & Cco & Cbi & Cbo & Cmf & Cad) Henc Hdec.
  unfold UnmarshalSia in Hdec.
  cbn [TransactionVersion_UnmarshalSia set_Version Version] in Hdec.
  change (Byte.eqb x00 TransactionVersionZero) with true in Hdec. cbv iota in Hdec.
  apply decode_into_Decoded in Hdec. destruct Hdec as (t6 & r6 & ad & Hdec & Uad & ->).
  apply decode_into_Decoded in Hdec. destruct Hdec as (t5 & r5 & mf & Hdec & Umf & ->).
  apply decode_into_Decoded in Hdec. destruct Hdec as (t4 & r4 & bo & Hdec & Ubo & ->).
  apply decode_into_Decoded in Hdec. destruct Hdec as (t3 & r3 & bi & Hdec & Ubi & ->).
  apply decode_into_Decoded in Hdec. destruct Hdec as (t2 & r2 & co & Hdec & Uco & ->).
  apply decode_into_Decoded in Hdec. destruct Hdec as (t1 & r1 & ci & Hdec & Uci & ->).
  injection Hdec as <- <-.
  apply Cad in Uad. apply Cmf in Umf. apply Cbo in Ubo.
  apply Cbi in Ubi. apply Cco in Uco. apply Cci in Uci.
  assert (Hm : MarshalSia E
                 (set_ArbitraryData ad (set_MinerFees mf (set_BlockStakeOutputs bo
                    (set_BlockStakeInputs bi (set_CoinOutputs co (set_CoinInputs ci
                       (set_Version x00 recv)))))))
               = (x00 :: Marshal (codec_CoinInputs E) ci ++ Marshal (codec_CoinOutputs E) co
                      ++ Marshal (codec_BlockStakeInputs E) bi
                      ++ Marshal (codec_BlockStakeOutputs E) bo
                      ++ Marshal (codec_MinerFees E) mf
                      ++ Marshal (codec_Bytes E) ad ++ [], None)).
  { rewrite MarshalSia_legacy; [reflexivity | reflexivity |].
    unfold extension_encoder in *. exact Henc. }
  split.
  - rewrite Hm. reflexivity.
  - rewrite Hm. cbn [fst app]. f_equal.
    rewrite Uci, Uco, Ubi, Ubo, Umf, Uad.
    rewrite app_nil_r, <- !app_assoc. reflexivity.
Qed.

(** Two version 0 transactions without encoder extension, whose fields
    the decoder gives back, are written to the same bytes only if they
    have the same six core fields: they can differ in their extension
    only. *)
Theorem MarshalSia_legacy_injective t1 t2 :
  Version t1 = TransactionVersionZero -> Version t2 = TransactionVersionZero ->
  extension_encoder E t1 = None -> extension_encoder E t2 = None ->
  core_fields_decode E t1 -> core_fields_decode E t2 ->
  fst (MarshalSia E t1) = fst (MarshalSia E t2) ->
  set_Extension None t1 = set_Extension None t2.
Proof.
  intros Hv1 Hv2 He1 He2 Hd1 Hd2 Hbytes.
  pose proof (UnmarshalSia_legacy E t1 zeroTransaction [] Hv1 He1 Hd1) as H1.
  pose proof (UnmarshalSia_legacy E t2 zeroTransaction [] Hv2 He2 Hd2) as H2.
  rewrite Hbytes, H2 in H1. injection H1 as Ev Eci Eco Ebi Ebo Emf Ead.
  unfold set_Extension. rewrite Ev, Eci, Eco, Ebi, Ebo, Emf, Ead. reflexivity.
Qed.

Lemma decode_into_frame {A : Type} (c : Codec A) (set : A -> Transaction -> Transaction)
  (o : outcome) :
  (forall a t, Extension (set a t) = Extension t /\ Version (set a t) = Version t) ->
  Extension (outcome_transaction (decode_into c set o)) = Extension (outcome_transaction o)
  /\ Version (outcome_transaction (decode_into c set o)) = Version (outcome_transaction o).
Proof.
  intros Hset. unfold decode_into.
  destruct o as [t0 r0 | t0 err]; [| split; reflexivity].
  destruct (Unmarshal c r0) as [[a r1] | err]; [| split; reflexivity].
  cbn [outcome_transaction]. apply Hset.
Qed.

(** Reading a legacy transaction never touches the receiver's extension:
    on an empty reader, and on every input that starts with the version
    byte 0, the receiver ends with the extension it had and with version
    0, whether the call fails or not. *)
Theorem UnmarshalSia_legacy_keeps_extension recv (r : list byte) :
  (r = [] \/ exists r', r = x00 :: r') ->
  Extension (outcome_transaction (UnmarshalSia E recv r)) = Extension recv
  /\ Version (outcome_transaction (UnmarshalSia E recv r)) = TransactionVersionZero.
Proof.
  intros [-> | [r' ->]]; [split; reflexivity |].
  unfold UnmarshalSia.
  cbn [TransactionVersion_UnmarshalSia set_Version Version].
  change (Byte.eqb x00 TransactionVersionZero) with true. cbv iota.
  repeat match goal with
         | |- context [decode_into ?c ?set ?o] =>
             let H := fresh "Hframe" in
             destruct (decode_into_frame c set o) as [-> ->];
             [intros a t; split; reflexivity |]
         end.
  split; reflexivity.
Qed.


(** For a version other than 0 the receiver's old contents never show in
    the result: once the data slice is read, the outcome is the same for
    any two receivers; when reading it fails, the receiver keeps all but
    its version, which is already overwritten. *)
Theorem UnmarshalSia_versioned_ignores_receiver (v : TransactionVersion) (r : list byte) :
  v <> TransactionVersionZero ->
  match Unmarshal (codec_Bytes E) r with
  | Ok _ => forall recv1 recv2, UnmarshalSia E recv1 (v :: r) = UnmarshalSia E recv2 (v :: r)
  | Err e => forall recv, UnmarshalSia E recv (v :: r) = Failed (set_Version v recv) e
  end.
Proof.
  intros Hv. unfold UnmarshalSia.
  cbn [TransactionVersion_UnmarshalSia set_Version Version].
  rewrite (version_eqb_nonzero _ Hv).
  destruct (Unmarshal (codec_Bytes E) r) as [[rawData r2] | e]; intros; reflexivity.
Qed.

(** If [UnmarshalSia] succeeds on an input, every transaction carrying
    the version the input starts with is standard. *)
Theorem UnmarshalSia_success_means_standard recv (v : TransactionVersion) (r : list byte)
  t (rest : list byte) :
  UnmarshalSia E recv (v :: r) = Decoded t rest ->
  forall t', Version t' = v -> IsStandardTransaction E t' = None.
Proof.
  intros Hdec t' Hv. unfold IsStandardTransaction. rewrite Hv.
  unfold UnmarshalSia in Hdec.
  cbn [TransactionVersion_UnmarshalSia set_Version Version] in Hdec.
  destruct (Byte.eqb v TransactionVersionZero); [reflexivity |].
  destruct (Unmarshal (codec_Bytes E) r) as [[rawData r2] | e]; [| discriminate Hdec].
  unfold decoder_for in Hdec.
  destruct (_RegisteredTransactionDecoders E !! v) as [d |]; [reflexivity |].
  cbn in Hdec. discriminate Hdec.
Qed.

(** *** JSON *)

(** [UnmarshalJSON] writes the receiver in one assignment: when the
    envelope does not parse, or carries version 0, a failing call leaves
    the receiver as it was, and a successful one leaves it with version 0
    and the extension it had. *)
Theorem UnmarshalJSON_legacy_atomic recv (b : list byte) :
  (forall txn, json_Unmarshal_jsonTransaction E b = Ok txn ->
               jt_Version txn = TransactionVersionZero) ->
  (snd (UnmarshalJSON E recv b) <> None -> fst (UnmarshalJSON E recv b) = recv)
  /\ (snd (UnmarshalJSON E recv b) = None ->
      Version (fst (UnmarshalJSON E recv b)) = TransactionVersionZero
      /\ Extension (fst (UnmarshalJSON E recv b)) = Extension recv).
Proof.
  intros Hzero. unfold UnmarshalJSON.
  destruct (json_Unmarshal_jsonTransaction E b) as [txn | err].
  - rewrite (Hzero txn eq_refl). change (Byte.eqb TransactionVersionZero TransactionVersionZero) with true.
    cbv iota.
    destruct (json_Unmarshal_jsonLegacy E (jt_Data txn)) as [data | err]; cbn [fst snd].
    + split; [intros Hne; exfalso; apply Hne; reflexivity | intros _; split; reflexivity].
    + split; [intros _; reflexivity | intros He; discriminate He].
  - cbn [fst snd]. split; [intros _; reflexivity | intros He; discriminate He].
Qed.


(** Whatever [MarshalJSON] returns without error is the two-member
    envelope of the transaction's version and a data value. With an
    encoder extension the data are what [json.Marshal] emits for the bytes
    its [JSONEncodeTransactionData] returned, taken as a raw message (not
    those bytes as they are); an error of the encoder, or of
    [json.Marshal] refusing the bytes, is returned as it is. *)
Theorem MarshalJSON_envelope t :
  (forall doc, MarshalJSON E t = Ok doc ->
     exists data,
       doc = JObject [("version"%string, JNumber (Z_of_byte (Version t)));
                      ("data"%string, data)]
       /\ forall encoder, extension_encoder E t = Some encoder ->
            exists raw emitted,
              JSONEncodeTransactionData encoder t = Ok raw
              /\ json_RawMessage E raw = Ok emitted
              /\ data = JRaw emitted)
  /\ (forall encoder err,
        extension_encoder E t = Some encoder ->
        JSONEncodeTransactionData encoder t = Err err ->
        MarshalJSON E t = Err err)
  /\ (forall encoder raw err,
        extension_encoder E t = Some encoder ->
        JSONEncodeTransactionData encoder t = Ok raw ->
        json_RawMessage E raw = Err err ->
        MarshalJSON E t = Err err).
Proof.
  unfold MarshalJSON. split; [| split].
  - intros doc. destruct (extension_encoder E t) as [encoder |].
    + destruct (JSONEncodeTransactionData encoder t) as [raw | err] eqn:Eraw;
        [| intros H; discriminate H].
      cbn [json_Marshal_jsonTransaction].
      destruct (json_RawMessage E raw) as [emitted | err] eqn:Eemit;
        [| intros H; discriminate H].
      intros H. injection H as <-. exists (JRaw emitted). split; [reflexivity |].
      intros encoder' Hsame. injection Hsame as <-. exists raw, emitted. auto.
    + unfold json_Marshal_jsonLegacy.
      destruct (json_Marshal_struct _) as [ms | err]; [| intros H; discriminate H].
      cbn [json_Marshal_jsonTransaction].
      intros H. injection H as <-. exists (JObject ms). split; [reflexivity |].
      intros encoder Hnone. discriminate Hnone.
  - intros encoder err Henc Herr. rewrite Henc, Herr. reflexivity.
  - intros encoder raw err Henc Hraw Hemit. rewrite Henc, Hraw.
    cbn [json_Marshal_jsonTransaction]. rewrite Hemit. reflexivity.
Qed.

(** *** Identity *)

(** The bytes hashed for an output ID are the specifier, then the bytes
    hashed for the transaction's ID, then the 8 bytes of the index: they
    are 24 bytes longer than the bytes hashed for the ID, so never the
    same bytes. *)
Theorem output_id_input_extends_ID_input t (i : Z) :
  ID E t = HashBytes E (output_id_body E t)
  /\ CoinOutputID_input E t i = SpecifierCoinOutput ++ output_id_body E t ++ EncUint64 i
  /\ BlockStakeOutputID_input E t i
     = SpecifierBlockStakeOutput ++ output_id_body E t ++ EncUint64 i
  /\ length (CoinOutputID_input E t i) = (24 + length (output_id_body E t))%nat
  /\ length (BlockStakeOutputID_input E t i) = (24 + length (output_id_body E t))%nat
  /\ CoinOutputID_input E t i <> output_id_body E t
  /\ BlockStakeOutputID_input E t i <> output_id_body E t.
Proof.
  assert (Hid : ID E t = HashBytes E (output_id_body E t)).
  { unfold ID, output_id_body, HashAll.
    destruct (Byte.eqb (Version t) TransactionVersionZero); reflexivity. }
  assert (Hc : CoinOutputID_input E t i
               = SpecifierCoinOutput ++ output_id_body E t ++ EncUint64 i)
    by apply output_id_input_shape.
  assert (Hb : BlockStakeOutputID_input E t i
               = SpecifierBlockStakeOutput ++ output_id_body E t ++ EncUint64 i)
    by apply output_id_input_shape.
  assert (Hlc : length (CoinOutputID_input E t i) = (24 + length (output_id_body E t))%nat).
  { rewrite Hc, !length_app, EncUint64_length.
    change (length SpecifierCoinOutput) with 16%nat. lia. }
  assert (Hlb : length (BlockStakeOutputID_input E t i)
                = (24 + length (output_id_body E t))%nat).
  { rewrite Hb, !length_app, EncUint64_length.
    change (length SpecifierBlockStakeOutput) with 16%nat. lia. }
  repeat (split; [assumption |]).
  split; intros Heq; apply (f_equal (@length byte)) in Heq; lia.
Qed.

(** Output IDs of any two transactions: the bytes hashed for a coin
    output never equal those hashed for a blockstake output, whatever the
    transactions and indices; and the bytes hashed for two coin outputs
    (or two blockstake outputs) are equal only for the same index and the
    same transaction bytes. *)
Theorem output_id_inputs_injective t t' (i j : Z) :
  is_uint64 i -> is_uint64 j ->
  CoinOutputID_input E t i <> BlockStakeOutputID_input E t' j
  /\ (CoinOutputID_input E t i = CoinOutputID_input E t' j ->
      output_id_body E t = output_id_body E t' /\ i = j)
  /\ (BlockStakeOutputID_input E t i = BlockStakeOutputID_input E t' j ->
      output_id_body E t = output_id_body E t' /\ i = j).
Proof.
  intros Hi Hj.
  unfold CoinOutputID_input, BlockStakeOutputID_input.
  rewrite !output_id_input_shape.
  split; [apply output_specifiers_differ |].
  split; intros Heq; apply app_inv_head in Heq;
    apply app_inj_2 in Heq; try (rewrite !EncUint64_length; reflexivity);
    destruct Heq as [Hbody Hidx]; (split; [exact Hbody | apply EncUint64_inj; assumption]).
Qed.


(** The ID and the output IDs of a version 0 transaction do not depend on
    its extension: the bytes hashed stay the same when the extension is
    replaced, also by an encoder that changes what [MarshalSia] writes. *)
Theorem legacy_ID_ignores_extension t (x : option (ExtensionValue T)) (i : Z) :
  Version t = TransactionVersionZero ->
  ID E (set_Extension x t) = ID E t
  /\ Transaction_CoinOutputID E (set_Extension x t) i = Transaction_CoinOutputID E t i
  /\ Transaction_BlockStakeOutputID E (set_Extension x t) i
     = Transaction_BlockStakeOutputID E t i.
Proof.
  intros Hv.
  unfold ID, Transaction_CoinOutputID, Transaction_BlockStakeOutputID, output_id_objs.
  cbn [set_Extension Version]. rewrite (version_eqb_zero _ Hv).
  destruct t. repeat split; reflexivity.
Qed.

(** *** The sum of the coin outputs *)

Lemma fold_left_Add (zero : Currency T) (Add : Currency T -> Currency T -> Currency T)
  {A : Type} (value : A -> Currency T) (l : list A) (start : Currency T) :
  (forall x, Add x zero = x) ->
  (forall x y z, Add x (Add y z) = Add (Add x y) z) ->
  fold_left (fun sum a => Add sum (value a)) l start
  = Add start (Currency_total zero Add (map value l)).
Proof.
  intros Hzero Hassoc. revert start.
  induction l as [| a l IH]; intros start; cbn [fold_left map Currency_total fold_right].
  - symmetry. apply Hzero.
  - rewrite IH. unfold Currency_total. rewrite Hassoc. reflexivity.
Qed.

(** When adding currencies is associative with the zero value as unit,
    [CoinOutputSum] is the total of the coin output values plus the total
    of the miner fees; nothing else of the transaction counts. *)
Theorem CoinOutputSum_total (zero : Currency T) (Add : Currency T -> Currency T -> Currency T) t :
  (forall x, Add zero x = x) ->
  (forall x, Add x zero = x) ->
  (forall x y z, Add x (Add y z) = Add (Add x y) z) ->
  CoinOutputSum zero Add t
  = Add (Currency_total zero Add (map co_Value (CoinOutputs t)))
        (Currency_total zero Add (MinerFees t)).
Proof.
  intros Hleft Hright Hassoc. unfold CoinOutputSum.
  rewrite (fold_left_Add zero Add co_Value) by assumption.
  rewrite Hleft.
  rewrite <- (map_id (MinerFees t)) at 2.
  apply (fold_left_Add zero Add (fun fee => fee)); assumption.
Qed.

End MoreTransactionProperties.

Lemma UnmarshalSia_legacy_keeps_extension_witness :
  Extension (outcome_transaction (UnmarshalSia world_unregistered validated_tx [x00; x07]))
  = Extension validated_tx
  /\ Version (outcome_transaction (UnmarshalSia world_unregistered validated_tx [x00; x07]))
     = TransactionVersionZero.
Proof.
  apply (UnmarshalSia_legacy_keeps_extension world_unregistered validated_tx [x00; x07]).
  right. exists [x07]. reflexivity.
Defined.

Lemma UnmarshalJSON_legacy_atomic_witness :
  (snd (UnmarshalJSON world_unregistered validated_tx [x00; x7b; x7d]) <> None ->
   fst (UnmarshalJSON world_unregistered validated_tx [x00; x7b; x7d]) = validated_tx)
  /\ (snd (UnmarshalJSON world_unregistered validated_tx [x00; x7b; x7d]) = None ->
      Version (fst (UnmarshalJSON world_unregistered validated_tx [x00; x7b; x7d]))
      = TransactionVersionZero
      /\ Extension (fst (UnmarshalJSON world_unregistered validated_tx [x00; x7b; x7d]))
         = Extension validated_tx).
Proof.
  apply (UnmarshalJSON_legacy_atomic world_unregistered validated_tx [x00; x7b; x7d]).
  intros txn Hparse. injection Hparse as <-. reflexivity.
Defined.

Lemma output_id_inputs_injective_witness :
  CoinOutputID_input world_unregistered legacy_tx 0
  <> BlockStakeOutputID_input world_unregistered v1_tx 1
  /\ (CoinOutputID_input world_unregistered legacy_tx 0
      = CoinOutputID_input world_unregistered v1_tx 1 ->
      output_id_body world_unregistered legacy_tx = output_id_body world_unregistered v1_tx
      /\ 0 = 1)
  /\ (BlockStakeOutputID_input world_unregistered legacy_tx 0
      = BlockStakeOutputID_input world_unregistered v1_tx 1 ->
      output_id_body world_unregistered legacy_tx = output_id_body world_unregistered v1_tx
      /\ 0 = 1).
Proof.
  apply (output_id_inputs_injective world_unregistered legacy_tx v1_tx 0 1);
    unfold is_uint64; lia.
Defined.

Lemma CoinOutputSum_total_witness :
  @CoinOutputSum countingTypes 0%N N.add counted_tx = 17%N.
Proof.
  exact (@CoinOutputSum_total countingTypes 0%N N.add counted_tx
           N.add_0_l N.add_0_r N.add_assoc).
Defined.

(** ** The further properties at the examples *)

Lemma read_bytes_inv (n : nat) (r bs r' : list byte) :
  read_bytes n r = Ok (bs, r') -> r = bs ++ r' /\ length bs = n.
Proof.
  revert r bs r'. induction n as [| n IH]; intros r bs r' Hread; simpl in Hread.
  - injection Hread as <- <-. split; reflexivity.
  - destruct r as [| b r]; [discriminate Hread |].
    destruct (read_bytes n r) as [[bs0 r0] | e] eqn:Er; [| discriminate Hread].
    injection Hread as <- <-.
    destruct (IH r bs0 r0 Er) as [-> <-]. split; reflexivity.
Qed.

Lemma EncUint64_DecUint64 (prefix : list byte) :
  length prefix = 8%nat -> EncUint64 (DecUint64 prefix) = prefix.
Proof.
  intros Hlen. unfold EncUint64, DecUint64.
  rewrite firstn_all2 by lia.
  rewrite <- Hlen. apply le_bytes_le_value.
Qed.

Lemma read_length_prefix (r prefix r0 : list byte) :
  read_bytes 8 r = Ok (prefix, r0) ->
  r = EncUint64 (DecUint64 prefix) ++ r0 /\ 0 <= DecUint64 prefix.
Proof.
  intros Hread. apply read_bytes_inv in Hread. destruct Hread as [-> Hlen].
  rewrite (EncUint64_DecUint64 prefix Hlen). split; [reflexivity |].
  apply le_value_nonneg.
Qed.

Lemma fixture_bytes_canonical : canonical fixture_bytes.
Proof.
  intros r a r'. cbn [Unmarshal Marshal fixture_bytes]. unfold read_prefixed, write_prefixed.
  destruct (read_bytes 8 r) as [[prefix r0] | e] eqn:Eprefix; [| intros H; discriminate H].
  intros Hbody. apply read_length_prefix in Eprefix. destruct Eprefix as [-> Hpos].
  apply read_bytes_inv in Hbody. destruct Hbody as [-> Hlen].
  rewrite Hlen, Z2Nat.id by exact Hpos. now rewrite <- app_assoc.
Qed.

Lemma fixture_pair_canonical {A : Type} (mk : list byte -> list byte -> A)
  (p1 p2 : A -> list byte) :
  (forall x y, p1 (mk x y) = x) -> (forall x y, p2 (mk x y) = y) ->
  canonical (fixture_pair mk p1 p2).
Proof.
  intros Hp1 Hp2 r a r'. cbn [Unmarshal Marshal fixture_pair].
  destruct (read_prefixed r) as [[x r1] | e] eqn:Ex; [| intros H; discriminate H].
  destruct (read_prefixed r1) as [[y r2] | e] eqn:Ey; [| intros H; discriminate H].
  intros H. injection H as <- <-.
  apply (fixture_bytes_canonical r x r1) in Ex.
  apply (fixture_bytes_canonical r1 y r2) in Ey.
  cbn [Marshal fixture_bytes] in Ex, Ey.
  rewrite Hp1, Hp2, Ex, Ey. now rewrite <- app_assoc.
Qed.

Lemma read_items_inv {A : Type} (c : Codec A) (n : nat) (r : list byte)
  (l : list A) (r' : list byte) :
  canonical c ->
  read_items c n r = Ok (l, r') ->
  r = concat (map (Marshal c) l) ++ r' /\ length l = n.
Proof.
  intros Hc. revert r l r'. induction n as [| n IH]; intros r l r' Hread; simpl in Hread.
  - injection Hread as <- <-. split; reflexivity.
  - destruct (Unmarshal c r) as [[a r1] | e] eqn:Ea; [| discriminate Hread].
    destruct (read_items c n r1) as [[l0 r2] | e] eqn:El; [| discriminate Hread].
    injection Hread as <- <-.
    apply Hc in Ea. destruct (IH r1 l0 r2 El) as [Hr1 <-].
    split; [| reflexivity].
    cbn [map concat]. rewrite Ea, Hr1. now rewrite <- app_assoc.
Qed.

Lemma fixture_slice_canonical {A : Type} (c : Codec A) :
  canonical c -> canonical (fixture_slice c).
Proof.
  intros Hc r l r'. cbn [Unmarshal Marshal fixture_slice].
  destruct (read_bytes 8 r) as [[prefix r0] | e] eqn:Eprefix; [| intros H; discriminate H].
  intros Hitems. apply read_length_prefix in Eprefix. destruct Eprefix as [-> Hpos].
  apply (read_items_inv c _ _ _ _ Hc) in Hitems. destruct Hitems as [-> Hlen].
  rewrite Hlen, Z2Nat.id by exact Hpos. now rewrite <- app_assoc.
Qed.

Lemma fixture_codecs_canonical (registered : gmap TransactionVersion TransactionDecoder) :
  core_codecs_canonical (fixtureEnv registered).
Proof.
  unfold core_codecs_canonical. cbn [fixtureEnv codec_CoinInputs codec_CoinOutputs
    codec_BlockStakeInputs codec_BlockStakeOutputs codec_MinerFees codec_Bytes].
  repeat split;
    try apply fixture_slice_canonical;
    try (apply fixture_pair_canonical; intros x y; reflexivity);
    apply fixture_bytes_canonical.
Qed.

Lemma MarshalSia_error_behaviour_witness :
  exists tail, fst (MarshalSia world_unregistered encoder_tx) = Version encoder_tx :: tail.
Proof.
  destruct (MarshalSia_error_behaviour world_unregistered encoder_tx) as (_ & _ & Hfirst).
  apply Hfirst. reflexivity.
Defined.

Lemma MarshalSia_after_UnmarshalSia_witness :
  MarshalSia world_unregistered legacy_tx
  = (x00 :: concat (core_fields world_unregistered legacy_tx), None)
  /\ x00 :: concat (core_fields world_unregistered legacy_tx)
     = fst (MarshalSia world_unregistered legacy_tx) ++ [].
Proof.
  apply (MarshalSia_after_UnmarshalSia world_unregistered zeroTransaction
           (concat (core_fields world_unregistered legacy_tx)) legacy_tx []).
  - apply fixture_codecs_canonical.
  - reflexivity.
  - vm_compute. reflexivity.
Defined.

Lemma UnmarshalSia_versioned_ignores_receiver_witness :
  UnmarshalSia world_registered legacy_tx (x01 :: write_prefixed [x2a])
  = UnmarshalSia world_registered zeroTransaction (x01 :: write_prefixed [x2a]).
Proof.
  assert (Hv : x01 <> TransactionVersionZero) by (intros Hv; discriminate Hv).
  exact (UnmarshalSia_versioned_ignores_receiver world_registered x01 (write_prefixed [x2a])
           Hv legacy_tx zeroTransaction).
Defined.

Lemma UnmarshalSia_success_means_standard_witness :
  IsStandardTransaction world_registered v1_tx = None.
Proof.
  apply (UnmarshalSia_success_means_standard world_registered zeroTransaction x01
           (write_prefixed (concat (core_fields world_registered v1_tx)))
           (set_Version x01 zeroTransaction) []).
  - vm_compute. reflexivity.
  - reflexivity.
Defined.

Lemma MarshalJSON_envelope_witness :
  exists data,
    JObject [("version"%string, JNumber 0);
             ("data"%string, JRaw [x7b; x22; x61; x22; x3a; x31; x7d])]
    = JObject [("version"%string, JNumber (Z_of_byte (Version json_encoder_tx)));
               ("data"%string, data)]
    /\ forall encoder, extension_encoder world_unregistered json_encoder_tx = Some encoder ->
         exists raw emitted,
           JSONEncodeTransactionData encoder json_encoder_tx = Ok raw
           /\ json_RawMessage world_unregistered raw = Ok emitted
           /\ data = JRaw emitted.
Proof.
  destruct (MarshalJSON_envelope world_unregistered json_encoder_tx) as [Hdoc _].
  apply Hdoc. reflexivity.
Defined.

Lemma MarshalSia_legacy_injective_witness :
  set_Extension None legacy_tx = set_Extension None validated_tx.
Proof.
  apply (MarshalSia_legacy_injective world_unregistered legacy_tx validated_tx);
    try reflexivity; repeat split; intros rest; reflexivity.
Defined.

Lemma legacy_ID_ignores_extension_witness :
  ID world_unregistered encoder_tx = ID world_unregistered legacy_tx
  /\ Transaction_CoinOutputID world_unregistered encoder_tx 0
     = Transaction_CoinOutputID world_unregistered legacy_tx 0
  /\ Transaction_BlockStakeOutputID world_unregistered encoder_tx 0
     = Transaction_BlockStakeOutputID world_unregistered legacy_tx 0.
Proof.
  apply (legacy_ID_ignores_extension world_unregistered legacy_tx
           (Some (double_encoder [x01])) 0).
  reflexivity.
Defined.
